(** * Verification of the pagination layer and the PostgreSQL array codec

    Shallow embedding of
    - [postgresql/custom_types.go]: [StringArray] and [Int64Array] with their
      [Scan] (decode) and [Value] (encode) methods;
    - the paginator of package [sqlbuilder]: the persistent chain of frames,
      its resolution, cursor handling and the fetch family.

    Go values are modelled as follows: [int], [int64] and [uint64] are [Z]
    (wrap-around written out where the source multiplies), a [[]byte] and a
    Go [string] are both [list ascii] (a Go string is an immutable byte
    sequence), a nil slice is [None] and a non-nil slice is [Some l]. *)

From Stdlib Require Import ZArith List Ascii String Bool Lia.
From Stdlib Require Import Floats.SpecFloat.
From stdpp Require Import gmap strings list.

Local Open Scope Z_scope.

(** ** Go runtime outcomes *)

(** A Go call either returns or panics. *)
Inductive outcome (A : Type) : Type :=
| Returns (a : A)
| Panics.
Arguments Returns {A} a.
Arguments Panics {A}.

(** Bytes and strings. *)
Abbreviation bytes := (list ascii).

Definition gostr (s : string) : bytes := list_ascii_of_string s.

Definition ch_lbrace : ascii := "{"%char.
Definition ch_rbrace : ascii := "}"%char.
Definition ch_space : ascii := " "%char.
Definition ch_comma : ascii := ","%char.
Definition ch_quote : ascii := "034"%char.
Definition ch_backslash : ascii := "\"%char.
Definition ch_minus : ascii := "-"%char.
Definition ch_plus : ascii := "+"%char.

(** [driver.Value] / the [src interface{}] handed to [Scan]: nil, a byte
    slice, or a value of some other dynamic type. *)
Inductive driver_value : Type :=
| DVNil
| DVBytes (b : bytes)
| DVString (s : bytes)
| DVInt64 (z : Z).

Module Codec.

(** *** strconv *)

Inductive num_error : Type := ErrSyntax | ErrRange.

Inductive scan_error : Type :=
| ErrNotBytes                      (* "Scan source was not []bytes" *)
| ErrBeyondBounds                  (* "Got additional data beyond expected bounds" *)
| ErrExpectingBrace (pos : nat)    (* "Expecting { at position %d" *)
| ErrParseInt (e : num_error).     (* error of strconv.ParseInt *)

(** The states of the scanner, [const ( stateInit = iota ... )]. *)
Inductive scan_state : Type :=
| stateInit
| stateOpenBracket
| stateOpenQuote
| stateLiteral
| stateEscape
| stateStop.


(** [type StringArray []string]; [None] is the nil slice. *)
Definition StringArray := option (list bytes).

(** [string(buffer)]: a nil buffer converts to the empty string. *)
Definition string_of_buffer (buffer : option bytes) : bytes :=
  match buffer with
  | None => []
  | Some b => b
  end.

(** [append(buffer, c)]: appending to a nil slice allocates. *)
Definition append_buffer (buffer : option bytes) (c : ascii) : option bytes :=
  Some (string_of_buffer buffer ++ [c]).

(** The registers of the scanning loop. *)
Record scan_regs : Type := mkRegs {
  r_state : scan_state;
  r_buffer : option bytes;
  r_results : list bytes
}.

(** One iteration of the [for] loop of [StringArray.Scan] at index [i]
    on byte [c]. *)
Definition scan_step (i : nat) (c : ascii) (r : scan_regs)
  : scan_error + scan_regs :=
  let '(mkRegs state buffer results) := r in
  match state with
  | stateStop => inl ErrBeyondBounds
  | stateInit =>
      if Ascii.eqb c ch_lbrace then inr (mkRegs stateOpenBracket None results)
      else inl (ErrExpectingBrace i)
  | stateOpenBracket =>
      if Ascii.eqb c ch_rbrace then
        inr (mkRegs stateStop buffer
               (match buffer with
                | Some b => results ++ [b]
                | None => results
                end))
      else if Ascii.eqb c ch_space then inr r
      else if Ascii.eqb c ch_comma then
        inr (mkRegs stateOpenBracket (Some []) (results ++ [string_of_buffer buffer]))
      else if Ascii.eqb c ch_quote then
        inr (mkRegs stateOpenQuote (Some []) results)
      else inr (mkRegs stateLiteral (Some [c]) results)
  | stateLiteral =>
      if Ascii.eqb c ch_rbrace then
        inr (mkRegs stateStop buffer (results ++ [string_of_buffer buffer]))
      else if Ascii.eqb c ch_comma then
        inr (mkRegs stateOpenBracket (Some []) (results ++ [string_of_buffer buffer]))
      else inr (mkRegs stateLiteral (append_buffer buffer c) results)
  | stateEscape =>
      inr (mkRegs stateOpenQuote (append_buffer buffer c) results)
  | stateOpenQuote =>
      if Ascii.eqb c ch_backslash then inr (mkRegs stateEscape buffer results)
      else if Ascii.eqb c ch_quote then inr (mkRegs stateOpenBracket buffer results)
      else inr (mkRegs stateOpenQuote (append_buffer buffer c) results)
  end.

(** [for i := ...; i < len(b); i++] over the bytes that remain. *)
Fixpoint scan_loop (i : nat) (r : scan_regs) (rest : bytes)
  : scan_error + scan_regs :=
  match rest with
  | [] => inr r
  | c :: rest' =>
      match scan_step i c r with
      | inl e => inl e
      | inr r' => scan_loop (S i) r' rest'
      end
  end.

(** The loop as [Scan] runs it: [results := []string{}],
    [state := stateOpenBracket], [var buffer []byte], [i := 1]. *)
Definition scan_bytes (b : bytes) : scan_error + scan_regs :=
  scan_loop 1 (mkRegs stateOpenBracket None []) (drop 1 b).

(** [func (a *StringArray) Scan(src interface{}) error]: the receiver
    before the call and the source give the receiver after the call and
    the returned error. *)
Definition StringArray_Scan (a : StringArray) (src : driver_value)
  : StringArray * option scan_error :=
  match src with
  | DVNil => (None, None)
  | DVBytes b =>
      match b with
      | [] => (None, None)
      | _ =>
          match scan_bytes b with
          | inl e => (a, Some e)
          | inr r => (Some (r_results r), None)
          end
      end
  | _ => (a, Some ErrNotBytes)
  end.

(** [strings.IndexAny(v, chars)] for ASCII [chars]: index of the first
    byte of [v] that occurs in [chars]. *)
Fixpoint IndexAny (v chars : bytes) : option nat :=
  match v with
  | [] => None
  | c :: v' =>
      if existsb (Ascii.eqb c) chars then Some O
      else option_map S (IndexAny v' chars)
  end.

(** The [for] loop of [appendArrayQuotedString]; each iteration that does
    not break shortens [v], so [S (length v)] iterations are enough. *)
Fixpoint quote_loop (fuel : nat) (b v : bytes) : bytes :=
  match fuel with
  | O => b
  | S fuel' =>
      match IndexAny v [ch_quote; ch_backslash] with
      | None => b ++ v
      | Some i =>
          let b1 := if (0 <? i)%nat then b ++ take i v else b in
          match v !! i with
          | Some c => quote_loop fuel' (b1 ++ [ch_backslash; c]) (drop (S i) v)
          | None => b1
          end
      end
  end.

Definition appendArrayQuotedString (b v : bytes) : bytes :=
  quote_loop (S (length v)) (b ++ [ch_quote]) v ++ [ch_quote].

(** [func (a StringArray) Value() (driver.Value, error)]; the error is
    always nil. *)
Definition StringArray_Value (a : StringArray) : driver_value :=
  match a with
  | None => DVNil
  | Some [] => DVBytes [ch_lbrace; ch_rbrace]
  | Some (a0 :: tl) =>
      let b := appendArrayQuotedString [ch_lbrace] a0 in
      let b := fold_left (fun b ai => appendArrayQuotedString (b ++ [ch_comma]) ai) tl b in
      DVBytes (b ++ [ch_rbrace])
  end.

(** *** Int64Array *)

(** [type Int64Array []int64]; [None] is the nil slice. *)
Definition Int64Array := option (list Z).

Definition minInt64 : Z := - 2 ^ 63.
Definition maxInt64 : Z := 2 ^ 63 - 1.
Definition maxUint64 : Z := 2 ^ 64 - 1.

Definition in_int64 (z : Z) : Prop := minInt64 <= z <= maxInt64.

(** The value of a decimal digit byte, ['0' <= c && c <= '9'], [d = c - '0']. *)
Definition digit_of (c : ascii) : option Z :=
  let n := Z.of_nat (nat_of_ascii c) in
  if (48 <=? n) && (n <=? 57) then Some (n - 48) else None.

(** The byte of a decimal digit. *)
Definition digit_char (d : Z) : ascii := ascii_of_nat (Z.to_nat (48 + d)).

(** The digit loop of [strconv.ParseUint(s, 10, 64)]: a byte that is not
    a decimal digit is a syntax error, a value beyond [maxUint64] a range
    error, reported at the byte where it arises. *)
Fixpoint ParseUint_loop (n : Z) (s : bytes) : Z + num_error :=
  match s with
  | [] => inl n
  | c :: s' =>
      match digit_of c with
      | None => inr ErrSyntax
      | Some d =>
          if maxUint64 / 10 + 1 <=? n then inr ErrRange
          else
            let n1 := n * 10 + d in
            if maxUint64 <? n1 then inr ErrRange else ParseUint_loop n1 s'
      end
  end.

Definition ParseUint (s : bytes) : Z + num_error :=
  match s with
  | [] => inr ErrSyntax
  | _ => ParseUint_loop 0 s
  end.

(** [strconv.ParseInt(s, 10, 64)]: an optional sign, then [ParseUint];
    on a range error of [ParseUint] the magnitude is [maxUint64], which the
    signed cutoff [1 << 63] rejects again. *)
Definition ParseInt (s : bytes) : Z + num_error :=
  match s with
  | [] => inr ErrSyntax
  | c :: s' =>
      let neg := Ascii.eqb c ch_minus in
      let s1 := if Ascii.eqb c ch_plus then s' else if neg then s' else s in
      match ParseUint s1 with
      | inr ErrSyntax => inr ErrSyntax
      | r =>
          let un := match r with inl u => u | inr _ => maxUint64 end in
          let cutoff := 2 ^ 63 in
          if negb neg && (cutoff <=? un) then inr ErrRange
          else if neg && (cutoff <? un) then inr ErrRange
          else inl (if neg then - un else un)
      end
  end.

(** The decimal digits of [u], most significant first, in front of [acc];
    a 64-bit magnitude has at most 20 digits. *)
Fixpoint formatBits (fuel : nat) (u : Z) (acc : bytes) : bytes :=
  match fuel with
  | O => acc
  | S fuel' =>
      let acc' := digit_char (u mod 10) :: acc in
      if u / 10 =? 0 then acc' else formatBits fuel' (u / 10) acc'
  end.

(** [strconv.AppendInt(b, i, 10)]. *)
Definition AppendInt (b : bytes) (i : Z) : bytes :=
  b ++ (if i <? 0 then ch_minus :: formatBits 20 (- i) [] else formatBits 20 i []).

(** [strings.Split(s, sep)] for the one-byte separator [sep]. *)
Fixpoint Split (s : bytes) (sep : ascii) : list bytes :=
  match s with
  | [] => [[]]
  | c :: s' =>
      if Ascii.eqb c sep then [] :: Split s' sep
      else
        match Split s' sep with
        | h :: t => (c :: h) :: t
        | [] => [[c]]
        end
  end.

(** [for _, n := range parts]: parse each token, return at the first
    error. *)
Fixpoint parse_parts (parts : list bytes) (results : list Z)
  : num_error + list Z :=
  match parts with
  | [] => inr results
  | n :: parts' =>
      match ParseInt n with
      | inr err => inl err
      | inl i => parse_parts parts' (results ++ [i])
      end
  end.

(** [func (a *Int64Array) Scan(src interface{}) error]. The slice
    expression [string(b)[1 : len(b)-1]] panics on a one-byte source. *)
Definition Int64Array_Scan (a : Int64Array) (src : driver_value)
  : outcome (Int64Array * option scan_error) :=
  match src with
  | DVNil => Returns (None, None)
  | DVBytes b =>
      match b with
      | [] => Returns (None, None)
      | _ =>
          if (length b <? 2)%nat then Panics
          else
            let s := take (length b - 1 - 1)%nat (drop 1 b) in
            match s with
            | [] => Returns (Some [], None)
            | _ =>
                match parse_parts (Split s ch_comma) [] with
                | inl err => Returns (a, Some (ErrParseInt err))
                | inr results => Returns (Some results, None)
                end
            end
      end
  | _ => Returns (a, Some ErrNotBytes)
  end.

(** [func (a Int64Array) Value() (driver.Value, error)]; the error is
    always nil. *)
Definition Int64Array_Value (a : Int64Array) : driver_value :=
  match a with
  | None => DVNil
  | Some [] => DVBytes [ch_lbrace; ch_rbrace]
  | Some (a0 :: tl) =>
      let b := AppendInt [ch_lbrace] a0 in
      let b := fold_left (fun b ai => AppendInt (b ++ [ch_comma]) ai) tl b in
      DVBytes (b ++ [ch_rbrace])
  end.

(** *** Descriptions used to state the codec's properties *)

(** Is [c] one of the two bytes that the encoder escapes? *)
Definition is_special (c : ascii) : bool :=
  existsb (Ascii.eqb c) [ch_quote; ch_backslash].

(** Byte-wise view of the escaping done by [appendArrayQuotedString]. *)
Definition escape (v : bytes) : bytes :=
  flat_map (fun c => if is_special c then [ch_backslash; c] else [c]) v.



(** [c] is a decimal digit byte. *)
Definition is_digit (c : ascii) : Prop :=
  exists d, digit_of c = Some d /\ 0 <= d <= 9.

(** The value of a digit string read from the accumulator [n]. *)
Definition digits_value (n : Z) (ds : bytes) : Z :=
  fold_left (fun n c => n * 10 + default 0 (digit_of c)) ds n.

(** The two sequences of the specification's round-trip properties. *)
Definition sample_strings : list bytes :=
  [ gostr "a"; gostr "b,c"; [ "x"%char; ch_quote; "y"%char ]; [];
    [ "z"%char; ch_backslash; "w"%char ] ].

Definition sample_ints : list Z := [ -1; 0; 9223372036854775807 ].

End Codec.

(** ** Go's [float64] *)

(** IEEE 754 binary64 on the Standard Library's [spec_float]: 53 bits of
    precision, round to nearest, ties to even. *)
Module Float64.

Definition prec : Z := 53.
Definition emax : Z := 1024.

(** The conversion [float64(i)] of an integer. *)
Definition of_int (i : Z) : spec_float := binary_normalize prec emax i 0 false.

(** The quotient [x / y]. *)
Definition div (x y : spec_float) : spec_float := SFdiv prec emax x y.

(** [math.Ceil(x)]: the least integer value not below [x]; zeros,
    infinities and NaN are returned as they are, and so is a finite value
    with a non-negative exponent, which is an integer already. *)
Definition Ceil (x : spec_float) : spec_float :=
  match x with
  | S754_finite s m e =>
      if 0 <=? e then x
      else binary_normalize prec emax
             (- ((- cond_Zopp s (Zpos m)) / 2 ^ (- e))) 0 s
  | _ => x
  end.

(** The conversion [uint64(x)]: the fraction is discarded. Go leaves the
    result to the implementation when [uint64] cannot represent the value
    (negative, too large, infinite or NaN); the model wraps a finite value
    around and gives 0 otherwise. *)
Definition to_uint64 (x : spec_float) : Z :=
  match x with
  | S754_finite s m e =>
      let t := if 0 <=? e then Zpos m * 2 ^ e else Zpos m / 2 ^ (- e) in
      cond_Zopp s t mod 2 ^ 64
  | _ => 0
  end.

End Float64.

(** ** The paginator *)

Module Pager.

(** A Go [interface{}] staged as a cursor value: nil or a scalar. *)
Inductive value : Type :=
| VNil
| VInt (z : Z)
| VStr (s : string).

Definition value_is_nil (v : value) : bool :=
  match v with
  | VNil => true
  | _ => false
  end.

(** The errors of the package and, opaque, those of the executor. *)
Inductive error : Type :=
| errZeroPageSize          (* "Illegal page size (cannot be zero)" *)
| errMissingCursorColumn   (* "Missing cursor column" *)
| errExecutor (msg : string).

(** [err.Error()]. *)
Definition error_message (e : error) : string :=
  match e with
  | errZeroPageSize => "Illegal page size (cannot be zero)"
  | errMissingCursorColumn => "Missing cursor column"
  | errExecutor msg => msg
  end.

(** A call returns a value, returns an error, or panics. *)
Inductive result (A : Type) : Type :=
| Ok (a : A)
| Err (e : error)
| Panic.
Arguments Ok {A} a.
Arguments Err {A} e.
Arguments Panic {A}.

Definition bind {A B : Type} (r : result A) (k : A -> result B) : result B :=
  match r with
  | Ok a => k a
  | Err e => Err e
  | Panic => Panic
  end.

Notation "x <- r ;; k" := (bind r (fun x => k))
  (at level 100, r at next level, right associativity).

(** [db.Cond], a map from ["<column> <operator>"] to a value. *)
Abbreviation Cond := (gmap string value).

(** The external Selector, as the term of the calls made on it. Every
    method of the interface returns a new Selector. *)
Inductive selector : Type :=
| SelBase (name : string)                        (* the Selector given to [newPaginator] *)
| SelLimit (n : Z) (s : selector)                (* s.Limit(n) *)
| SelOffset (n : Z) (s : selector)               (* s.Offset(n) *)
| SelOrderBy (column : string) (s : selector)    (* s.OrderBy(column) *)
| SelWhere (c : Cond) (s : selector)             (* s.Where(c) *)
| SelSetColumns (raw : string) (s : selector)    (* s.setColumns(db.Raw(raw)) *)
| SelSelectFrom (columns raw : string) (inner : selector).
    (* s.SQLBuilder().Select(columns).From(db.Raw(raw, inner)) *)

(** [type paginatorQuery struct]. A Selector interface may be nil. *)
Record paginatorQuery : Type := mkQuery {
  sel : option selector;
  cursorColumn : string;
  cursorValue : value;
  cursorCond : option Cond;
  cursorReverseOrder : bool;
  pageSize : Z;
  pageNumber : Z
}.

Definition set_sel (pq : paginatorQuery) (s : selector) : paginatorQuery :=
  mkQuery (Some s) (cursorColumn pq) (cursorValue pq) (cursorCond pq)
          (cursorReverseOrder pq) (pageSize pq) (pageNumber pq).

(** [pq.sel = pq.sel.M(...)]: a method call on a nil interface panics. *)
Definition call_sel (m : selector -> selector) (pq : paginatorQuery)
  : result paginatorQuery :=
  match sel pq with
  | Some s => Ok (set_sel pq (m s))
  | None => Panic
  end.

(** The mutation carried by a frame, [func(pq *paginatorQuery) error]. *)
Definition frame_fn : Type := paginatorQuery -> result paginatorQuery.

(** A [*paginator]: the nil pointer, or a pointer to a
    [paginator{fn, prev}]. *)
Inductive paginator : Type :=
| nil_paginator
| mkPaginator (fn : option frame_fn) (prev : paginator).

(** [&paginator{}]. *)
Definition empty_paginator : paginator := mkPaginator None nil_paginator.

(** [func (pag *paginator) frame(fn) *paginator]. *)
Definition frame (pag : paginator) (fn : frame_fn) : paginator :=
  mkPaginator (Some fn) pag.

(** [func (pag *paginator) Prev() immutable.Immutable]. *)
Definition Prev (pag : paginator) : paginator :=
  match pag with
  | nil_paginator => nil_paginator
  | mkPaginator _ prev => prev
  end.

(** [func (pag *paginator) Base() interface{}]: [&paginatorQuery{}]. *)
Definition Base : paginatorQuery :=
  mkQuery None EmptyString VNil None false 0 0.

(** [func (pag *paginator) Fn(in interface{}) error]; reading [pag.fn]
    through a nil pointer panics. *)
Definition Fn (pag : paginator) (pq : paginatorQuery) : result paginatorQuery :=
  match pag with
  | nil_paginator => Panic
  | mkPaginator None _ => Ok pq
  | mkPaginator (Some fn) _ => fn pq
  end.

(** Modelled from the spec: [immutable.FastForward] of package
    [internal/immutable] is not among the sources. Resolution "starts from
    an empty base state, walks the chain from the oldest frame to the
    newest, applying each mutation's transformation in that order. The
    first mutation to fail aborts resolution immediately; later frames are
    not applied; that error is returned verbatim." The walk ends at the
    nil pointer behind the oldest frame, where the base state is made. *)
Fixpoint FastForward (pag : paginator) : result paginatorQuery :=
  match pag with
  | nil_paginator => Ok Base
  | mkPaginator _ prev => pq <- FastForward prev ;; Fn pag pq
  end.

(** Go's [int] is 64 bits wide; [*] wraps around. *)
Definition wrap64 (z : Z) : Z := (z + 2 ^ 63) mod 2 ^ 64 - 2 ^ 63.

Definition int_mul (a b : Z) : Z := wrap64 (a * b).

(** The frame of [func (pag *paginator) Page(pageNumber int) Paginator]. *)
Definition Page_fn (pageNumber0 : Z) : frame_fn := fun pq =>
  let pageNumber1 := if pageNumber0 <? 0 then -1 else pageNumber0 in
  let pq := mkQuery (sel pq) (cursorColumn pq) (cursorValue pq) (cursorCond pq)
                    (cursorReverseOrder pq) (pageSize pq) pageNumber1 in
  if pageNumber pq <? 0 then call_sel (SelOffset (-1)) pq
  else call_sel (SelOffset (int_mul (pageSize pq) (pageNumber pq))) pq.

Definition Page (pageNumber0 : Z) (pag : paginator) : paginator :=
  frame pag (Page_fn pageNumber0).

(** The frame of [func newPaginator(sel Selector, pageSize int) Paginator]. *)
Definition newPaginator_fn (sel0 : option selector) (pageSize0 : Z) : frame_fn :=
  fun pq =>
  let pageSize1 := if pageSize0 <? 0 then -1 else pageSize0 in
  let pq := mkQuery (sel pq) (cursorColumn pq) (cursorValue pq) (cursorCond pq)
                    (cursorReverseOrder pq) pageSize1 (pageNumber pq) in
  match sel0 with
  | Some s => Ok (set_sel pq (SelLimit (pageSize pq) s))
  | None => Panic
  end.

Definition newPaginator (sel0 : option selector) (pageSize0 : Z) : paginator :=
  Page 0 (frame empty_paginator (newPaginator_fn sel0 pageSize0)).

(** The frame of [func (pag *paginator) Cursor(column string) Paginator]. *)
Definition Cursor_fn (column : string) : frame_fn := fun pq =>
  Ok (mkQuery (sel pq) column VNil (cursorCond pq)
              (cursorReverseOrder pq) (pageSize pq) (pageNumber pq)).

Definition Cursor (column : string) (pag : paginator) : paginator :=
  frame pag (Cursor_fn column).

(** The frame of [func (pag *paginator) NextPage(cursorValue interface{})]. *)
Definition NextPage_fn (cursorValue0 : value) : frame_fn := fun pq =>
  if negb (value_is_nil (cursorValue pq)) && String.eqb (cursorColumn pq) EmptyString
  then Err errMissingCursorColumn
  else Ok (mkQuery (sel pq) (cursorColumn pq) cursorValue0
                   (Some {[ (cursorColumn pq ++ " >")%string := cursorValue0 ]})
                   false (pageSize pq) (pageNumber pq)).

Definition NextPage (cursorValue0 : value) (pag : paginator) : paginator :=
  frame pag (NextPage_fn cursorValue0).

(** The frame of [func (pag *paginator) PrevPage(cursorValue interface{})]. *)
Definition PrevPage_fn (cursorValue0 : value) : frame_fn := fun pq =>
  if negb (value_is_nil (cursorValue pq)) && String.eqb (cursorColumn pq) EmptyString
  then Err errMissingCursorColumn
  else Ok (mkQuery (sel pq) (cursorColumn pq) cursorValue0
                   (Some {[ (cursorColumn pq ++ " <")%string := cursorValue0 ]})
                   true (pageSize pq) (pageNumber pq)).

Definition PrevPage (cursorValue0 : value) (pag : paginator) : paginator :=
  frame pag (PrevPage_fn cursorValue0).

(** [func (pag *paginator) build()], returning the query and the error. *)
Definition build (pag : paginator) : result paginatorQuery := FastForward pag.

(** [orderBy[1:]]. *)
Definition string_tail (s : string) : string :=
  match s with
  | EmptyString => EmptyString
  | String _ rest => rest
  end.

(** The column handed to [OrderBy] for the inner query: with the reverse
    flag a leading "-" is removed, or added when there is none. *)
Definition cursor_orderBy (column : string) (reverse : bool) : string :=
  if reverse then
    if String.prefix "-" column then string_tail column
    else ("-" ++ column)%string
  else column.

(** [func (pag *paginator) buildWithCursor()], returning the query and the error. *)
Definition buildWithCursor (pag : paginator) : result paginatorQuery :=
  pqq <- FastForward pag ;;
  pqq <- (if negb (String.eqb (cursorColumn pqq) EmptyString)
          then call_sel (SelOrderBy
                           (cursor_orderBy (cursorColumn pqq) (cursorReverseOrder pqq)))
                        pqq
          else Ok pqq) ;;
  pqq <- (match cursorCond pqq with
          | Some c => pqq <- call_sel (SelWhere c) pqq ;; call_sel (SelOffset 0) pqq
          | None => Ok pqq
          end) ;;
  (if cursorReverseOrder pqq
   then match sel pqq with
        | Some s =>
            Ok (set_sel pqq (SelOrderBy (cursorColumn pqq)
                               (SelSelectFrom "_q0.*" "? AS _q0" s)))
        | None => Panic
        end
   else Ok pqq).

(** *** Counting *)

Section Executor.

(** The executor: what [QueryRow()] followed by [row.Scan(&count)] gives
    for a count query. *)
Variable exec_count : selector -> result Z.

(** [func (pq *paginatorQuery) count() (int, error)]; the type assertion
    [pq.sel] to the concrete selector type panics on a nil interface. *)
Definition count (pq : paginatorQuery) : result Z :=
  match sel pq with
  | Some s =>
      exec_count (SelOffset 0 (SelLimit 0 (SelSetColumns "count(1) AS _t" s)))
  | None => Panic
  end.

(** [func (pag *paginator) TotalItems() (int, error)]. *)
Definition TotalItems (pag : paginator) : result Z :=
  pq <- build pag ;; count pq.

(** [func (pag *paginator) TotalPages() (uint64, error)]. *)
Definition TotalPages (pag : paginator) : result Z :=
  pq <- build pag ;;
  n <- count pq ;;
  if pageSize pq <=? 0 then Ok 1
  else Ok (Float64.to_uint64
             (Float64.Ceil
                (Float64.div (Float64.of_int n) (Float64.of_int (pageSize pq))))).

End Executor.

(** The Selector's reading of an [OrderBy] argument: a leading "-" asks
    for descending order; this is the mark that [buildWithCursor] toggles. *)
Definition is_descending (orderBy : string) : bool := String.prefix "-" orderBy.

(** *** The fetch family *)

(** The methods of the Selector that the paginator delegates to. *)
Inductive method : Type :=
| mAll | mOne | mIterator | mIteratorContext | mString | mArguments
| mQuery | mQueryContext | mQueryRow | mQueryRowContext
| mPrepare | mPrepareContext.

(** What a fetch operation hands back to its caller. *)
Inductive fetched : Type :=
| Delegated (m : method) (s : selector)  (* whatever the Selector's method returns *)
| ReturnedError (e : error)              (* the error (and a nil first result) *)
| ReturnedIterator (e : error)           (* [&iterator{nil, err}] *)
| ReturnedNil                            (* nil, with no error *)
| Panicked (msg : option string).        (* panic; [Some msg] for [panic(msg)] *)

(** The common shape: resolve with the cursor, then either answer
    [on_error err] or call method [m] of the resolved Selector. *)
Definition fetch (m : method) (on_error : error -> fetched) (pag : paginator)
  : fetched :=
  match buildWithCursor pag with
  | Panic => Panicked None
  | Err e => on_error e
  | Ok pq =>
      match sel pq with
      | Some s => Delegated m s
      | None => Panicked None
      end
  end.

Definition All := fetch mAll ReturnedError.
Definition One := fetch mOne ReturnedError.
Definition Iterator := fetch mIterator ReturnedIterator.
Definition IteratorContext := fetch mIteratorContext ReturnedIterator.
Definition String_ := fetch mString (fun e => Panicked (Some (error_message e))).
Definition Arguments := fetch mArguments (fun _ => ReturnedNil).
Definition Query := fetch mQuery ReturnedError.
Definition QueryContext := fetch mQueryContext ReturnedError.
Definition QueryRow := fetch mQueryRow ReturnedError.
Definition QueryRowContext := fetch mQueryRowContext ReturnedError.
Definition Prepare := fetch mPrepare ReturnedError.
Definition PrepareContext := fetch mPrepareContext ReturnedError.

(** Does the outcome carry the error [e] to the caller? *)
Definition surfaces (e : error) (f : fetched) : bool :=
  match f with
  | ReturnedError e' | ReturnedIterator e' =>
      String.eqb (error_message e') (error_message e)
  | Panicked (Some msg) => String.eqb msg (error_message e)
  | _ => false
  end.

(** *** Frames as heap cells *)

(** A [*paginator] is a nil pointer or the address of a cell; the heap
    holds the [paginator] structs allocated so far, a new one at the next
    free address. *)
Record cell : Type := mkCell {
  cell_fn : option frame_fn;
  cell_prev : option nat
}.

Abbreviation heap := (list cell).

(** [frame] on the heap: [&paginator{prev: pag, fn: fn}] allocates. *)
Definition heap_frame (h : heap) (pag : option nat) (fn : frame_fn)
  : heap * option nat :=
  (h ++ [mkCell (Some fn) pag], Some (length h)).

(** The fluent operations of the [Paginator] interface. *)
Inductive fluent : Type :=
| OpPage (pageNumber0 : Z)
| OpCursor (column : string)
| OpNextPage (cursorValue0 : value)
| OpPrevPage (cursorValue0 : value).

Definition fluent_fn (op : fluent) : frame_fn :=
  match op with
  | OpPage n => Page_fn n
  | OpCursor c => Cursor_fn c
  | OpNextPage v => NextPage_fn v
  | OpPrevPage v => PrevPage_fn v
  end.

(** The same operations on chains as values. *)
Definition fluent_apply (pag : paginator) (op : fluent) : paginator :=
  match op with
  | OpPage n => Page n pag
  | OpCursor c => Cursor c pag
  | OpNextPage v => NextPage v pag
  | OpPrevPage v => PrevPage v pag
  end.

(** One fluent call on the heap. *)
Definition heap_call (h : heap) (pag : option nat) (op : fluent)
  : heap * option nat :=
  heap_frame h pag (fluent_fn op).

(** A sequence of fluent calls, each on the handle the previous one
    returned. *)
Fixpoint heap_calls (h : heap) (pag : option nat) (ops : list fluent)
  : heap * option nat :=
  match ops with
  | [] => (h, pag)
  | op :: ops' =>
      let '(h', pag') := heap_call h pag op in heap_calls h' pag' ops'
  end.

(** The chain that a pointer leads to, read off the heap by following
    [prev] at most [fuel] times. *)
Fixpoint heap_chain (fuel : nat) (h : heap) (pag : option nat)
  : option paginator :=
  match pag with
  | None => Some nil_paginator
  | Some a =>
      match fuel with
      | O => None
      | S fuel' =>
          match h !! a with
          | None => None
          | Some c =>
              option_map (mkPaginator (cell_fn c))
                         (heap_chain fuel' h (cell_prev c))
          end
      end
  end.

(** The resolved state seen through a handle. *)
Definition heap_resolve (h : heap) (pag : option nat)
  : option (result paginatorQuery) :=
  option_map FastForward (heap_chain (length h) h pag).

(** Every [prev] points to a cell allocated earlier. *)
Definition heap_wf (h : heap) : Prop :=
  forall a c p, h !! a = Some c -> cell_prev c = Some p -> (p < a)%nat.

(** A pointer is nil or the address of an allocated cell. *)
Definition heap_valid (h : heap) (pag : option nat) : Prop :=
  match pag with
  | None => True
  | Some a => (a < length h)%nat
  end.

End Pager.

(** ** Array texts *)

(** The texts that the decoders are run on below: elements, quoted or
    bare, between brackets and separated by commas. *)
Module ArrayText.

Import Codec.

(** [n] spaces. *)
Definition spaces (n : nat) : bytes := repeat ch_space n.

(** The elements joined by commas. *)
Fixpoint join_comma (l : list bytes) : bytes :=
  match l with
  | [] => []
  | [x] => x
  | x :: rest => x ++ ch_comma :: join_comma rest
  end.

(** An element of an array text: a quoted literal, with spaces before
    and after the quotes, or a bare literal after spaces. *)
Inductive element : Type :=
| Quoted (lead : nat) (v : bytes) (trail : nat)
| Bare (lead : nat) (t : bytes).

(** A bare literal that the scanner reads back as it is: empty, or
    starting with a byte that is no bracket, space, comma or quote and
    going on without closing bracket and comma. *)
Definition bare_ok (t : bytes) : bool :=
  match t with
  | [] => true
  | c :: rest =>
      negb (existsb (Ascii.eqb c) [ch_rbrace; ch_space; ch_comma; ch_quote]) &&
      forallb (fun c => negb (existsb (Ascii.eqb c) [ch_rbrace; ch_comma])) rest
  end.

Definition element_ok (e : element) : bool :=
  match e with
  | Quoted _ _ _ => true
  | Bare _ t => bare_ok t
  end.

Definition element_text (e : element) : bytes :=
  match e with
  | Quoted lead v trail =>
      spaces lead ++ ch_quote :: escape v ++ ch_quote :: spaces trail
  | Bare lead t => spaces lead ++ t
  end.

Definition element_value (e : element) : bytes :=
  match e with
  | Quoted _ v _ => v
  | Bare _ t => t
  end.

(** The one text whose only element is lost: a lone empty bare literal,
    which reads as the empty array. *)
Definition lone_empty (es : list element) : bool :=
  match es with
  | [Bare _ []] => true
  | _ => false
  end.

Definition array_text (es : list element) : bytes :=
  ch_lbrace :: join_comma (map element_text es) ++ [ch_rbrace].

(** The registers after an element read while awaiting one. *)
Definition after_element (e : element) (buf : option bytes) (res : list bytes)
  : scan_regs :=
  match e with
  | Quoted _ v _ => mkRegs stateOpenBracket (Some v) res
  | Bare _ [] => mkRegs stateOpenBracket buf res
  | Bare _ t => mkRegs stateLiteral (Some t) res
  end.

(** A decimal token: an optional sign and digits. *)
Inductive sign : Type := NoSign | Plus | Minus.

Definition signed_text (sg : sign) (ds : bytes) : bytes :=
  match sg with
  | NoSign => ds
  | Plus => ch_plus :: ds
  | Minus => ch_minus :: ds
  end.

Definition signed_value (sg : sign) (ds : bytes) : Z :=
  match sg with
  | Minus => - digits_value 0 ds
  | _ => digits_value 0 ds
  end.

(** A token of an integer array text holds no comma. *)
Definition no_comma (t : bytes) : Prop :=
  Forall (fun c => Ascii.eqb c ch_comma = false) t.

(** [z] fits an [int64]. *)
Definition in_int64b (z : Z) : bool := (minInt64 <=? z) && (z <=? maxInt64).

(** A decimal token of an integer array text and what it denotes. *)
Definition token : Type := sign * bytes.

Definition token_text (t : token) : bytes := signed_text (fst t) (snd t).

Definition token_value (t : token) : Z := signed_value (fst t) (snd t).

(** Is [ds] a string of decimal digits? *)
Definition all_digits (ds : bytes) : bool :=
  forallb (fun c => match digit_of c with Some _ => true | None => false end) ds.

(** The digits of a token: at least one, all decimal. *)
Definition token_ok (t : token) : Prop := snd t <> [] /\ Forall is_digit (snd t).

(** A token as the encoder writes it: no plus sign, no leading zero,
    no negative zero. *)
Definition canonical (t : token) : bool :=
  match fst t with
  | Plus => false
  | sg =>
      match snd t with
      | [] => false
      | [c] => negb (Ascii.eqb c "0" && match sg with Minus => true | _ => false end)
      | c :: _ => negb (Ascii.eqb c "0")
      end
  end.

End ArrayText.

(** ** Chains of fluent calls *)

Module Chains.

Import Pager.

(** The page size that [newPaginator] records and the page number that
    [Page] records: a negative one becomes [-1]. *)
Definition norm_size (n : Z) : Z := if n <? 0 then -1 else n.

Definition norm_page (n : Z) : Z := if n <? 0 then -1 else n.

(** The argument of the [Offset] call that [Page] makes for a recorded
    page number. *)
Definition page_offset (size page : Z) : Z :=
  if page <? 0 then -1 else int_mul size page.

(** The paginator that a caller gets from [newPaginator] with a Selector
    followed by a sequence of fluent calls. *)
Definition chain (sel0 : option selector) (n : Z) (ops : list fluent) : paginator :=
  fold_left fluent_apply ops (newPaginator sel0 n).

(** The Selector under the [Offset] calls made on it. *)
Fixpoint strip_offsets (s : selector) : selector :=
  match s with
  | SelOffset _ s' => strip_offsets s'
  | _ => s
  end.

(** The argument of the last [Offset] call, when that is the last call. *)
Definition offset_of (s : selector) : option Z :=
  match s with
  | SelOffset n _ => Some n
  | _ => None
  end.


(** [NextPage] and [PrevPage], the calls that stage a cursor value. *)
Definition is_step (op : fluent) : bool :=
  match op with
  | OpNextPage _ | OpPrevPage _ => true
  | _ => false
  end.

(** The calls that touch the cursor fields only. *)
Definition is_cursor_op (op : fluent) : bool :=
  match op with
  | OpPage _ => false
  | _ => true
  end.

(** The state that a sequence of fluent calls leads to from a result. *)
Definition run (ops : list fluent) (r : result paginatorQuery)
  : result paginatorQuery :=
  fold_left (fun r op => bind r (fluent_fn op)) ops r.

(** What resolution is expected to keep for a paginator made from the
    Selector [s] with page size [n]. *)
Definition resolved_from (s : selector) (n : Z) (pq : paginatorQuery) : Prop :=
  exists s',
    sel pq = Some s' /\
    strip_offsets s' = SelLimit (norm_size n) s /\
    offset_of s' = Some (page_offset (pageSize pq) (pageNumber pq)) /\
    pageSize pq = norm_size n /\
    -1 <= pageNumber pq.

(** A call that leaves a cursor column configured: any call but
    [Cursor] with the empty column. *)
Definition keeps_column (op : fluent) : bool :=
  match op with
  | OpCursor c => negb (String.eqb c EmptyString)
  | _ => true
  end.

(** The heaps that the program can make: empty, then extended by
    [&paginator{}] or by [frame] on a pointer it holds. *)
Inductive heap_reachable : heap -> Prop :=
| reach_empty : heap_reachable []
| reach_alloc h : heap_reachable h -> heap_reachable (h ++ [mkCell None None])
| reach_frame h pag fn :
    heap_reachable h -> heap_valid h pag ->
    heap_reachable (fst (heap_frame h pag fn)).

End Chains.

Import Codec.

(** ** The array codec: encoder *)

(** Right-nest every concatenation. *)
Ltac app_norm := repeat (progress (rewrite <- ?app_assoc; cbn [app])).

Section Escaping.

Lemma escape_app u v : escape (u ++ v) = escape u ++ escape v.
Proof. unfold escape. apply flat_map_app. Qed.

Lemma IndexAny_cons c v :
  IndexAny (c :: v) [ch_quote; ch_backslash] =
  if is_special c then Some O
  else option_map S (IndexAny v [ch_quote; ch_backslash]).
Proof. reflexivity. Qed.

Lemma escape_cons c v :
  escape (c :: v) = (if is_special c then [ch_backslash; c] else [c]) ++ escape v.
Proof. reflexivity. Qed.

Lemma escape_plain v :
  IndexAny v [ch_quote; ch_backslash] = None -> escape v = v.
Proof.
  induction v as [|c v IH]; [done|].
  rewrite IndexAny_cons, escape_cons.
  destruct (is_special c); [done|].
  destruct (IndexAny v _); [done|].
  intros _. by rewrite IH.
Qed.

Lemma IndexAny_split v i :
  IndexAny v [ch_quote; ch_backslash] = Some i ->
  exists c, v !! i = Some c /\ is_special c = true /\
            escape (take i v) = take i v /\ (i < length v)%nat.
Proof.
  revert i. induction v as [|c v IH]; intros i; [done|].
  rewrite IndexAny_cons.
  destruct (is_special c) eqn:Hc.
  - intros [= <-]. exists c. simpl. repeat split; auto. lia.
  - destruct (IndexAny v _) as [j|] eqn:Hj; [|done].
    intros [= <-]. destruct (IH j eq_refl) as (c' & H1 & H2 & H3 & H4).
    exists c'. repeat split; auto.
    + change (take (S j) (c :: v)) with (c :: take j v).
      by rewrite escape_cons, Hc, H3.
    + simpl. lia.
Qed.

Lemma escape_special c : is_special c = true -> escape [c] = [ch_backslash; c].
Proof. intros H. unfold escape. simpl. by rewrite H. Qed.

(** With enough iterations the loop of [appendArrayQuotedString] appends
    the escaped form of [v]. *)
Lemma quote_loop_escape fuel : forall b v,
  (length v < fuel)%nat -> quote_loop fuel b v = b ++ escape v.
Proof.
  induction fuel as [|fuel IH]; intros b v Hlen; [lia|].
  simpl. destruct (IndexAny v _) as [i|] eqn:Hi.
  - destruct (IndexAny_split v i Hi) as (c & Hc & Hsp & Hpre & Hlt).
    rewrite Hc.
    assert (Hb1 : (if (0 <? i)%nat then b ++ take i v else b) = b ++ take i v).
    { destruct i; simpl; [by rewrite app_nil_r|done]. }
    rewrite Hb1, IH by (rewrite length_drop; lia).
    rewrite <- (take_drop_middle v i c Hc) at 3.
    rewrite escape_app, Hpre. change (c :: drop (S i) v) with ([c] ++ drop (S i) v).
    rewrite escape_app, (escape_special c Hsp).
    by rewrite <- !app_assoc.
  - by rewrite escape_plain.
Qed.

Lemma appendArrayQuotedString_escape b v :
  appendArrayQuotedString b v = b ++ ch_quote :: escape v ++ [ch_quote].
Proof.
  unfold appendArrayQuotedString.
  rewrite quote_loop_escape by lia. by rewrite <- !app_assoc.
Qed.

End Escaping.


(** The quoted form of one element. *)
Lemma fold_append_quoted tl : forall b,
  fold_left (fun b ai => appendArrayQuotedString (b ++ [ch_comma]) ai) tl b
  = b ++ flat_map (fun ai => ch_comma :: ch_quote :: escape ai ++ [ch_quote]) tl.
Proof.
  induction tl as [|x tl IH]; intros b; simpl; [by rewrite app_nil_r|].
  rewrite IH, appendArrayQuotedString_escape.
  app_norm. reflexivity.
Qed.

Lemma StringArray_Value_cons a0 tl :
  StringArray_Value (Some (a0 :: tl)) =
  DVBytes (ch_lbrace :: (ch_quote :: escape a0 ++ [ch_quote]) ++
           flat_map (fun ai => ch_comma :: ch_quote :: escape ai ++ [ch_quote]) tl ++
           [ch_rbrace]).
Proof.
  unfold StringArray_Value.
  rewrite fold_append_quoted, appendArrayQuotedString_escape.
  app_norm. reflexivity.
Qed.

(** ** The array codec: scanner *)

Lemma scan_loop_app xs : forall i r rest,
  scan_loop i r (xs ++ rest) =
  match scan_loop i r xs with
  | inl e => inl e
  | inr r' => scan_loop (i + length xs) r' rest
  end.
Proof.
  induction xs as [|c xs IH]; intros i r rest; simpl.
  - by rewrite Nat.add_0_r.
  - destruct (scan_step i c r) as [e|r']; [done|].
    rewrite IH. by rewrite Nat.add_succ_r.
Qed.

(** Inside a quoted literal the scanner undoes the escaping. *)
Lemma scan_loop_escape v : forall i buf res,
  scan_loop i (mkRegs stateOpenQuote (Some buf) res) (escape v) =
  inr (mkRegs stateOpenQuote (Some (buf ++ v)) res).
Proof.
  induction v as [|c v IH]; intros i buf res.
  - simpl. by rewrite app_nil_r.
  - rewrite escape_cons. destruct (is_special c) eqn:Hc.
    + assert (Hb : Ascii.eqb ch_backslash ch_backslash = true) by reflexivity.
      cbn [app scan_loop scan_step]. rewrite Hb.
      cbn [app scan_loop scan_step]. unfold append_buffer.
      cbn [string_of_buffer]. rewrite IH. by rewrite <- app_assoc.
    + unfold is_special in Hc. cbn [existsb] in Hc.
      apply orb_false_iff in Hc as [H1 H2]. apply orb_false_iff in H2 as [H2 _].
      cbn [app scan_loop scan_step]. rewrite H2, H1.
      unfold append_buffer. cbn [string_of_buffer].
      rewrite IH. by rewrite <- app_assoc.
Qed.

(** A quoted element read while awaiting an element leaves its text in
    the buffer. *)
Lemma scan_loop_quoted v i buf res :
  scan_loop i (mkRegs stateOpenBracket buf res) (ch_quote :: escape v ++ [ch_quote]) =
  inr (mkRegs stateOpenBracket (Some v) res).
Proof.
  cbn [scan_loop scan_step].
  change (Ascii.eqb ch_quote ch_rbrace) with false.
  change (Ascii.eqb ch_quote ch_space) with false.
  change (Ascii.eqb ch_quote ch_comma) with false.
  change (Ascii.eqb ch_quote ch_quote) with true.
  cbv iota. rewrite scan_loop_app, scan_loop_escape.
  reflexivity.
Qed.

Lemma scan_loop_tail tl : forall i prev res,
  exists buf,
  scan_loop i (mkRegs stateOpenBracket (Some prev) res)
    (flat_map (fun ai => ch_comma :: ch_quote :: escape ai ++ [ch_quote]) tl ++ [ch_rbrace]) =
  inr (mkRegs stateStop buf (res ++ prev :: tl)).
Proof.
  induction tl as [|x tl IH]; intros i prev res.
  - by eexists.
  - cbn [flat_map]. rewrite <- app_assoc.
    change ((ch_comma :: ch_quote :: escape x ++ [ch_quote]) ++ ?r)
      with (ch_comma :: (ch_quote :: escape x ++ [ch_quote]) ++ r).
    cbn [scan_loop scan_step].
    change (Ascii.eqb ch_comma ch_rbrace) with false.
    change (Ascii.eqb ch_comma ch_space) with false.
    change (Ascii.eqb ch_comma ch_comma) with true.
    cbv iota. rewrite scan_loop_app, scan_loop_quoted.
    destruct (IH (S i + length (ch_quote :: escape x ++ [ch_quote]))%nat x
                 (res ++ [string_of_buffer (Some prev)])) as [buf ->].
    exists buf. cbn [string_of_buffer]. by rewrite <- app_assoc.
Qed.

(** Encoding a present sequence of strings and decoding the bytes gives
    the sequence back. *)
Lemma StringArray_round_trip a l :
  StringArray_Scan a (StringArray_Value (Some l)) = (Some l, None).
Proof.
  destruct l as [|a0 tl]; [reflexivity|].
  rewrite StringArray_Value_cons.
  unfold StringArray_Scan, scan_bytes. cbn [skipn]. rewrite ?drop_0.
  rewrite scan_loop_app, scan_loop_quoted.
  destruct (scan_loop_tail tl (1 + length (ch_quote :: escape a0 ++ [ch_quote]))%nat a0 [])
    as [buf ->].
  reflexivity.
Qed.

(** ** The array codec: integers *)

Lemma digit_of_digit_char d : 0 <= d <= 9 -> digit_of (digit_char d) = Some d.
Proof.
  intros H.
  assert (Hd : d = 0 \/ d = 1 \/ d = 2 \/ d = 3 \/ d = 4 \/ d = 5 \/ d = 6 \/
               d = 7 \/ d = 8 \/ d = 9) by lia.
  repeat (destruct Hd as [-> | Hd]; [reflexivity|]). by subst.
Qed.

Lemma digits_value_app n ds ds' :
  digits_value n (ds ++ ds') = digits_value (digits_value n ds) ds'.
Proof. apply fold_left_app. Qed.

(** [formatBits] puts in front of [acc] a non-empty digit string whose
    value is [u]. *)
Lemma formatBits_digits fuel : forall u acc,
  (0 < fuel)%nat -> 0 <= u < 10 ^ Z.of_nat fuel ->
  exists ds, formatBits fuel u acc = ds ++ acc /\ ds <> [] /\ Forall is_digit ds /\
             forall n, digits_value n ds = n * 10 ^ Z.of_nat (length ds) + u.
Proof.
  induction fuel as [|fuel IH]; intros u acc Hfuel Hu; [lia|].
  - cbn [formatBits].
    assert (Hm : 0 <= u mod 10 <= 9) by (pose proof (Z.mod_pos_bound u 10); lia).
    destruct (Z.eqb_spec (u / 10) 0) as [Hq|Hq].
    + exists [digit_char (u mod 10)]. repeat split; [done| |].
      * constructor; [|constructor]. exists (u mod 10). by rewrite digit_of_digit_char.
      * intros n. unfold digits_value. cbn [fold_left length].
        rewrite digit_of_digit_char by done. cbn [default from_option id].
        pose proof (Z.div_mod u 10). change (10 ^ Z.of_nat 1) with 10. lia.
    + assert (Hu' : 0 <= u / 10 < 10 ^ Z.of_nat fuel).
      { split; [apply Z.div_pos; lia|].
        apply Z.div_lt_upper_bound; [lia|].
        rewrite Nat2Z.inj_succ, Z.pow_succ_r in Hu by lia. lia. }
      assert (Hfuel' : (0 < fuel)%nat).
      { destruct fuel; [|lia]. change (10 ^ Z.of_nat 0) with 1 in Hu'. lia. }
      destruct (IH (u / 10) (digit_char (u mod 10) :: acc) Hfuel' Hu')
        as (ds & Heq & Hne & Hall & Hval).
      exists (ds ++ [digit_char (u mod 10)]). repeat split.
      * rewrite Heq. by rewrite <- app_assoc.
      * by destruct ds.
      * apply Forall_app. split; [done|]. constructor; [|constructor].
        exists (u mod 10). by rewrite digit_of_digit_char.
      * intros n. rewrite digits_value_app, Hval.
        unfold digits_value at 1. cbn [fold_left].
        rewrite digit_of_digit_char by done. cbn [default from_option id].
        rewrite length_app. cbn [length]. rewrite Nat.add_1_r, Nat2Z.inj_succ, Z.pow_succ_r by lia.
        pose proof (Z.div_mod u 10). lia.
Qed.

Lemma digits_value_mono ds : forall n, 0 <= n -> Forall is_digit ds -> n <= digits_value n ds.
Proof.
  induction ds as [|c ds IH]; intros n Hn Hall; [unfold digits_value; cbn [fold_left]; lia|].
  inversion Hall as [|? ? (d & Hd & Hr) Hall']; subst.
  unfold digits_value. cbn [fold_left]. rewrite Hd. cbn [default from_option id].
  fold (digits_value (n * 10 + d) ds).
  specialize (IH (n * 10 + d) ltac:(lia) Hall'). lia.
Qed.

(** Reading back a digit string whose value fits 64 bits. *)
Lemma ParseUint_loop_digits ds : forall n,
  0 <= n -> Forall is_digit ds -> digits_value n ds <= maxUint64 ->
  ParseUint_loop n ds = inl (digits_value n ds).
Proof.
  induction ds as [|c ds IH]; intros n Hn Hall Hmax; [reflexivity|].
  inversion Hall as [|? ? (d & Hd & Hr) Hall']; subst.
  cbn [ParseUint_loop]. rewrite Hd.
  assert (Hstep : digits_value n (c :: ds) = digits_value (n * 10 + d) ds).
  { unfold digits_value. cbn [fold_left]. by rewrite Hd. }
  rewrite Hstep in *.
  pose proof (digits_value_mono ds (n * 10 + d) ltac:(lia) Hall') as Hmono.
  assert (Hcut : (maxUint64 / 10 + 1 <=? n) = false).
  { apply Z.leb_gt. unfold maxUint64 in *.
    change ((2 ^ 64 - 1) / 10 + 1) with 1844674407370955162.
    change (2 ^ 64 - 1) with 18446744073709551615 in *. lia. }
  rewrite Hcut.
  assert (Hn1 : (maxUint64 <? n * 10 + d) = false) by (apply Z.ltb_ge; lia).
  rewrite Hn1. apply IH; [lia|done|done].
Qed.

Lemma is_digit_not c a : is_digit c -> digit_of a = None -> Ascii.eqb c a = false.
Proof.
  intros (d & Hd & _) Ha. destruct (Ascii.eqb_spec c a) as [->|]; [congruence|done].
Qed.

(** [ParseInt] inverts [AppendInt] on every [int64]. *)
Lemma ParseInt_AppendInt i :
  in_int64 i ->
  exists ds, AppendInt [] i = ds /\ ds <> [] /\
             Forall (fun c => Ascii.eqb c ch_comma = false) ds /\
             ParseInt ds = inl i.
Proof.
  intros [Hlo Hhi]. unfold minInt64, maxInt64 in *.
  unfold AppendInt. cbn [app].
  destruct (Z.ltb_spec i 0) as [Hneg|Hpos].
  - destruct (formatBits_digits 20 (- i) []) as (ds & Heq & Hne & Hall & Hval); [lia| |].
    { change (10 ^ Z.of_nat 20) with 100000000000000000000.
      change (2 ^ 63) with 9223372036854775808 in *. lia. }
    rewrite app_nil_r in Heq. rewrite Heq.
    exists (ch_minus :: ds). repeat split; [done| |].
    + constructor; [reflexivity|].
      eapply Forall_impl; [exact Hall|]. intros c Hc. by apply is_digit_not.
    + unfold ParseInt.
      change (Ascii.eqb ch_minus ch_minus) with true.
      change (Ascii.eqb ch_minus ch_plus) with false. cbv iota.
      unfold ParseUint. destruct ds as [|c ds]; [done|].
      specialize (Hval 0). rewrite Z.mul_0_l, Z.add_0_l in Hval.
      rewrite ParseUint_loop_digits; [|lia|done|].
      2:{ rewrite Hval. unfold maxUint64.
          change (2 ^ 64 - 1) with 18446744073709551615.
          change (2 ^ 63) with 9223372036854775808 in *. lia. }
      rewrite Hval. cbn [negb andb].
      destruct (Z.ltb_spec (2 ^ 63) (- i)) as [H|H]; [lia|].
      f_equal. lia.
  - destruct (formatBits_digits 20 i []) as (ds & Heq & Hne & Hall & Hval); [lia| |].
    { change (10 ^ Z.of_nat 20) with 100000000000000000000.
      change (2 ^ 63) with 9223372036854775808 in *. lia. }
    rewrite app_nil_r in Heq. rewrite Heq.
    exists ds. repeat split; [done| |].
    + eapply Forall_impl; [exact Hall|]. intros c Hc. by apply is_digit_not.
    + unfold ParseInt. destruct ds as [|c ds]; [done|].
      inversion Hall as [|? ? Hc Hall']; subst.
      rewrite (is_digit_not c ch_minus Hc eq_refl), (is_digit_not c ch_plus Hc eq_refl).
      unfold ParseUint.
      specialize (Hval 0). rewrite Z.mul_0_l, Z.add_0_l in Hval.
      rewrite ParseUint_loop_digits; [|lia|done|].
      2:{ rewrite Hval. unfold maxUint64.
          change (2 ^ 64 - 1) with 18446744073709551615.
          change (2 ^ 63) with 9223372036854775808 in *. lia. }
      rewrite Hval. cbn [negb andb].
      destruct (Z.leb_spec (2 ^ 63) i) as [H|H]; [lia|done].
Qed.

Lemma AppendInt_app b i : AppendInt b i = b ++ AppendInt [] i.
Proof. reflexivity. Qed.

Lemma fold_AppendInt tl : forall b,
  fold_left (fun b ai => AppendInt (b ++ [ch_comma]) ai) tl b
  = b ++ flat_map (fun ai => ch_comma :: AppendInt [] ai) tl.
Proof.
  induction tl as [|x tl IH]; intros b; simpl; [by rewrite app_nil_r|].
  rewrite IH, AppendInt_app. app_norm. reflexivity.
Qed.

Lemma Split_cons_shape s sep : exists h t, Split s sep = h :: t.
Proof.
  induction s as [|c s (h & t & IH)]; cbn [Split]; [by eexists _, _|].
  destruct (Ascii.eqb c sep); [by eexists _, _|]. rewrite IH. by eexists _, _.
Qed.

Lemma Split_no_sep x sep : forall rest h t,
  Forall (fun c => Ascii.eqb c sep = false) x ->
  Split rest sep = h :: t ->
  Split (x ++ rest) sep = (x ++ h) :: t.
Proof.
  induction x as [|c x IH]; intros rest h t Hx Hrest.
  - done.
  - inversion Hx as [|? ? Hc Hx']; subst.
    cbn [app Split]. by rewrite Hc, (IH rest h t Hx' Hrest).
Qed.

Lemma Split_formatted l : forall a0,
  Forall in_int64 (a0 :: l) ->
  Split (AppendInt [] a0 ++ flat_map (fun ai => ch_comma :: AppendInt [] ai) l) ch_comma
  = map (AppendInt []) (a0 :: l).
Proof.
  induction l as [|a1 l IH]; intros a0 Hall;
    inversion Hall as [|? ? Ha0 Hall']; subst;
    destruct (ParseInt_AppendInt a0 Ha0) as (ds & Hds & _ & Hnc & _);
    rewrite <- Hds in Hnc.
  - cbn [flat_map]. rewrite (Split_no_sep _ _ [] [] [] Hnc eq_refl). by rewrite app_nil_r.
  - rewrite (Split_no_sep _ _ _ [] (map (AppendInt []) (a1 :: l)) Hnc).
    + by rewrite app_nil_r.
    + cbn [flat_map app Split]. change (Ascii.eqb ch_comma ch_comma) with true.
      cbv iota. by rewrite IH.
Qed.

Lemma parse_parts_formatted l : forall results,
  Forall in_int64 l ->
  parse_parts (map (AppendInt []) l) results = inr (results ++ l).
Proof.
  induction l as [|a0 l IH]; intros results Hall; cbn [map parse_parts].
  - by rewrite app_nil_r.
  - inversion Hall as [|? ? Ha0 Hall']; subst.
    destruct (ParseInt_AppendInt a0 Ha0) as (ds & Hds & _ & _ & Hp).
    rewrite Hds, Hp, IH by done. by rewrite <- app_assoc.
Qed.

(** Encoding a present sequence of [int64] and decoding the bytes gives
    the sequence back. *)
Lemma Int64Array_round_trip a l :
  Forall in_int64 l ->
  Int64Array_Scan a (Int64Array_Value (Some l)) = Returns (Some l, None).
Proof.
  intros Hall. destruct l as [|a0 tl]; [reflexivity|].
  unfold Int64Array_Value. rewrite fold_AppendInt, AppendInt_app.
  set (body := AppendInt [] a0 ++ flat_map (fun ai => ch_comma :: AppendInt [] ai) tl).
  replace (([ch_lbrace] ++ AppendInt [] a0) ++
           flat_map (fun ai => ch_comma :: AppendInt [] ai) tl)
    with (ch_lbrace :: body) by (unfold body; app_norm; reflexivity).
  assert (Hbody : body <> []).
  { inversion Hall as [|? ? Ha0 _]; subst.
    destruct (ParseInt_AppendInt a0 Ha0) as (ds & Hds & Hne & _).
    unfold body. rewrite Hds. by destruct ds. }
  unfold Int64Array_Scan. cbn [app].
  assert (Hlen : length (ch_lbrace :: body ++ [ch_rbrace]) = S (S (length body))).
  { cbn [length]. rewrite length_app. cbn [length]. lia. }
  rewrite Hlen. cbn [Nat.ltb Nat.leb Nat.sub skipn].
  rewrite Nat.sub_0_r, drop_0, take_app_length.
  destruct body as [|c body'] eqn:Hb; [done|]. rewrite <- Hb.
  unfold body. rewrite Split_formatted by done.
  rewrite parse_parts_formatted by done. reflexivity.
Qed.

(** ** Decoding: absent sources, trailing data, atomicity *)


Lemma scan_step_not_init i c r r' :
  r_state r <> stateInit -> scan_step i c r = inr r' -> r_state r' <> stateInit.
Proof.
  destruct r as [st buf res]. cbn [r_state]. intros Hst.
  destruct st; cbn [scan_step]; try done;
    repeat (match goal with |- context [if ?b then _ else _] => destruct b end);
    intros [= <-]; done.
Qed.


Lemma scan_loop_not_init xs : forall i r r',
  r_state r <> stateInit -> scan_loop i r xs = inr r' -> r_state r' <> stateInit.
Proof.
  induction xs as [|c xs IH]; intros i r r' Hr; cbn [scan_loop].
  - by intros [= <-].
  - destruct (scan_step i c r) as [e|r1] eqn:H1; [done|].
    apply IH. by eapply scan_step_not_init.
Qed.













(** C7. Encoding a present sequence and decoding the bytes produced gives
    back the same elements in the same order, for every sequence of
    strings and every sequence of 64-bit integers, and in particular for
    the two sequences named by the specification. *)
Theorem array_codec_round_trip :
  (forall a l, StringArray_Scan a (StringArray_Value (Some l)) = (Some l, None)) /\
  (forall a l, Forall in_int64 l ->
     Int64Array_Scan a (Int64Array_Value (Some l)) = Returns (Some l, None)) /\
  (length sample_strings = 5%nat /\
   StringArray_Scan None (StringArray_Value (Some sample_strings))
   = (Some sample_strings, None)) /\
  Int64Array_Scan None (Int64Array_Value (Some sample_ints))
  = Returns (Some sample_ints, None).
Proof.
  split; [exact StringArray_round_trip|].
  split; [exact Int64Array_round_trip|].
  split; [split; [reflexivity|apply StringArray_round_trip]|].
  apply Int64Array_round_trip.
  repeat constructor; discriminate.
Qed.

Lemma array_codec_round_trip_witness :
  Int64Array_Scan (Some [7]) (Int64Array_Value (Some [-9223372036854775808; 42]))
  = Returns (Some [-9223372036854775808; 42], None).
Proof.
  apply (proj1 (proj2 array_codec_round_trip)).
  repeat constructor; discriminate.
Defined.

(** C10. Whenever [StringArray.Scan] or [Int64Array.Scan] returns an
    error, the receiver is what it was before the call. *)
Theorem Scan_error_keeps_receiver :
  (forall a src a' e, StringArray_Scan a src = (a', Some e) -> a' = a) /\
  (forall a src a' e, Int64Array_Scan a src = Returns (a', Some e) -> a' = a).
Proof.
  split; intros a src a' e.
  - unfold StringArray_Scan. destruct src as [|b| |]; try congruence.
    destruct b; [congruence|]. destruct (scan_bytes _); congruence.
  - unfold Int64Array_Scan. destruct src as [|b| |]; try congruence.
    destruct b as [|c b]; [congruence|]. destruct (_ <? _)%nat; [congruence|].
    destruct (take _ _); [congruence|]. destruct (parse_parts _ _); congruence.
Qed.

Lemma Scan_error_keeps_receiver_witness :
  Some [gostr "kept"] = Some [gostr "kept"] /\ Some [1; 2] = Some [1; 2].
Proof.
  split.
  - apply (proj1 Scan_error_keeps_receiver (Some [gostr "kept"])
             (DVBytes (gostr "{a}{b}")) _ ErrBeyondBounds).
    reflexivity.
  - apply (proj2 Scan_error_keeps_receiver (Some [1; 2])
             (DVBytes (gostr "{1,x,3}")) _ (ErrParseInt ErrSyntax)).
    reflexivity.
Defined.

Import Pager.

(** ** The paginator: resolution of a chain *)

Lemma FastForward_frame pag fn :
  FastForward (frame pag fn) = (pq <- FastForward pag ;; fn pq).
Proof. reflexivity. Qed.

Lemma String_eqb_empty (c : string) : c <> EmptyString -> String.eqb c EmptyString = false.
Proof. intros H. by apply String.eqb_neq. Qed.

Lemma FastForward_Cursor pag pq c :
  FastForward pag = Ok pq ->
  FastForward (Cursor c pag) =
  Ok (mkQuery (sel pq) c VNil (cursorCond pq) (cursorReverseOrder pq)
              (pageSize pq) (pageNumber pq)).
Proof. intros H. unfold Cursor. by rewrite FastForward_frame, H. Qed.

(** A cursor step taken with a column configured. *)
Lemma NextPage_fn_column v pq :
  cursorColumn pq <> EmptyString ->
  NextPage_fn v pq =
  Ok (mkQuery (sel pq) (cursorColumn pq) v
              (Some {[ (cursorColumn pq ++ " >")%string := v ]}) false
              (pageSize pq) (pageNumber pq)).
Proof.
  intros H. unfold NextPage_fn. rewrite (String_eqb_empty _ H).
  by rewrite andb_false_r.
Qed.

Lemma PrevPage_fn_column v pq :
  cursorColumn pq <> EmptyString ->
  PrevPage_fn v pq =
  Ok (mkQuery (sel pq) (cursorColumn pq) v
              (Some {[ (cursorColumn pq ++ " <")%string := v ]}) true
              (pageSize pq) (pageNumber pq)).
Proof.
  intros H. unfold PrevPage_fn. rewrite (String_eqb_empty _ H).
  by rewrite andb_false_r.
Qed.

Lemma value_is_nil_spec v : value_is_nil v = true <-> v = VNil.
Proof. destruct v; simpl; split; congruence. Qed.

(** The guard shared by [NextPage] and [PrevPage]. *)
Lemma missing_column_guard pq :
  negb (value_is_nil (cursorValue pq)) && String.eqb (cursorColumn pq) EmptyString = true
  <-> cursorValue pq <> VNil /\ cursorColumn pq = EmptyString.
Proof.
  rewrite andb_true_iff, negb_true_iff, String.eqb_eq.
  rewrite <- not_true_iff_false, value_is_nil_spec. tauto.
Qed.

(** C4. [NextPage] and [PrevPage] fail, with the missing-column error,
    exactly when the state they are applied to has a staged cursor value
    and an empty cursor column; otherwise they succeed. In particular the
    first cursor call on a new paginator, with no column configured,
    succeeds and builds the condition on the empty column, and a second
    one after it fails. *)
Theorem cursor_step_missing_column (v : value) (pq : paginatorQuery) :
  (NextPage_fn v pq = Err errMissingCursorColumn <->
     cursorValue pq <> VNil /\ cursorColumn pq = EmptyString) /\
  (PrevPage_fn v pq = Err errMissingCursorColumn <->
     cursorValue pq <> VNil /\ cursorColumn pq = EmptyString) /\
  (~ (cursorValue pq <> VNil /\ cursorColumn pq = EmptyString) ->
     NextPage_fn v pq =
       Ok (mkQuery (sel pq) (cursorColumn pq) v
                   (Some {[ (cursorColumn pq ++ " >")%string := v ]}) false
                   (pageSize pq) (pageNumber pq)) /\
     PrevPage_fn v pq =
       Ok (mkQuery (sel pq) (cursorColumn pq) v
                   (Some {[ (cursorColumn pq ++ " <")%string := v ]}) true
                   (pageSize pq) (pageNumber pq))) /\
  (forall s n,
     build (NextPage v (newPaginator (Some s) n)) =
       Ok (mkQuery (Some (SelOffset (int_mul (if n <? 0 then -1 else n) 0)
                            (SelLimit (if n <? 0 then -1 else n) s)))
                   EmptyString v (Some {[ " >"%string := v ]}) false
                   (if n <? 0 then -1 else n) 0) /\
     build (PrevPage v (newPaginator (Some s) n)) =
       Ok (mkQuery (Some (SelOffset (int_mul (if n <? 0 then -1 else n) 0)
                            (SelLimit (if n <? 0 then -1 else n) s)))
                   EmptyString v (Some {[ " <"%string := v ]}) true
                   (if n <? 0 then -1 else n) 0) /\
     (v <> VNil -> forall v',
        build (NextPage v' (NextPage v (newPaginator (Some s) n)))
          = Err errMissingCursorColumn /\
        build (PrevPage v' (NextPage v (newPaginator (Some s) n)))
          = Err errMissingCursorColumn)).
Proof.
  pose proof (missing_column_guard pq) as Hg.
  assert (HN : NextPage_fn v pq = Err errMissingCursorColumn <->
               cursorValue pq <> VNil /\ cursorColumn pq = EmptyString).
  { rewrite <- Hg. unfold NextPage_fn. destruct (_ && _); split; congruence. }
  assert (HP : PrevPage_fn v pq = Err errMissingCursorColumn <->
               cursorValue pq <> VNil /\ cursorColumn pq = EmptyString).
  { rewrite <- Hg. unfold PrevPage_fn. destruct (_ && _); split; congruence. }
  split; [exact HN|]. split; [exact HP|]. split.
  - intros H. rewrite <- Hg in H. unfold NextPage_fn, PrevPage_fn.
    destruct (_ && _); [done|]. by split.
  - intros s n. split; [reflexivity|]. split; [reflexivity|].
    intros Hv v'. destruct v; [done| |]; split; reflexivity.
Qed.

Lemma cursor_step_missing_column_witness :
  NextPage_fn (VInt 2) (mkQuery None EmptyString (VInt 1) None false 10 0)
  = Err errMissingCursorColumn.
Proof.
  apply (proj1 (cursor_step_missing_column (VInt 2)
                  (mkQuery None EmptyString (VInt 1) None false 10 0))).
  split; [discriminate|reflexivity].
Defined.

(** ** Cursor pagination *)

Lemma cursor_orderBy_plain c :
  String.prefix "-" c = false -> cursor_orderBy c true = ("-" ++ c)%string.
Proof. intros H. unfold cursor_orderBy. by rewrite H. Qed.

Lemma cursor_orderBy_dashed r :
  cursor_orderBy ("-" ++ r) true = r.
Proof. destruct r; reflexivity. Qed.

(** C2 (as amended). After [Cursor(c)] with a non-empty [c],
    [PrevPage(v)] sets the condition [c < v] and the backward direction.
    At resolution the inner query is ordered by [c] with its direction
    flipped (a leading "-" removed, or added when there is none, so
    descending for a plain column), filtered by the condition at offset 0,
    wrapped as a subquery whose columns are all projected, and ordered
    again by [c] as it was given, so ascending for a plain column. *)
Theorem PrevPage_resolution pag pq s c v :
  FastForward pag = Ok pq -> sel pq = Some s -> c <> EmptyString ->
  FastForward (PrevPage v (Cursor c pag)) =
    Ok (mkQuery (Some s) c v (Some {[ (c ++ " <")%string := v ]}) true
                (pageSize pq) (pageNumber pq)) /\
  buildWithCursor (PrevPage v (Cursor c pag)) =
    Ok (mkQuery
          (Some (SelOrderBy c
                   (SelSelectFrom "_q0.*" "? AS _q0"
                      (SelOffset 0
                         (SelWhere {[ (c ++ " <")%string := v ]}
                            (SelOrderBy (cursor_orderBy c true) s))))))
          c v (Some {[ (c ++ " <")%string := v ]}) true
          (pageSize pq) (pageNumber pq)) /\
  (is_descending c = false ->
     cursor_orderBy c true = ("-" ++ c)%string /\
     is_descending (cursor_orderBy c true) = true) /\
  (forall r, c = ("-" ++ r)%string -> cursor_orderBy c true = r).
Proof.
  intros Hpag Hsel Hc.
  assert (Hff : FastForward (PrevPage v (Cursor c pag)) =
                Ok (mkQuery (Some s) c v (Some {[ (c ++ " <")%string := v ]}) true
                            (pageSize pq) (pageNumber pq))).
  { unfold PrevPage. rewrite FastForward_frame, (FastForward_Cursor pag pq c Hpag).
    cbn [bind]. rewrite PrevPage_fn_column by done. cbn. by rewrite Hsel. }
  split; [exact Hff|]. split.
  - unfold buildWithCursor. rewrite Hff. cbn [bind cursorColumn].
    rewrite (String_eqb_empty c Hc). reflexivity.
  - split.
    + intros Hd. unfold is_descending in Hd. rewrite (cursor_orderBy_plain c Hd).
      split; [done|]. unfold is_descending. by destruct c.
    + intros r ->. apply cursor_orderBy_dashed.
Qed.

Lemma PrevPage_resolution_witness :
  buildWithCursor (PrevPage (VInt 42) (Cursor "id" (newPaginator (Some (SelBase "t")) 10))) =
    Ok (mkQuery
          (Some (SelOrderBy "id"
                   (SelSelectFrom "_q0.*" "? AS _q0"
                      (SelOffset 0
                         (SelWhere {[ "id <"%string := VInt 42 ]}
                            (SelOrderBy "-id"
                               (SelOffset 0 (SelLimit 10 (SelBase "t")))))))))
          "id" (VInt 42) (Some {[ "id <"%string := VInt 42 ]}) true 10 0).
Proof.
  apply (proj1 (proj2 (PrevPage_resolution
                         (newPaginator (Some (SelBase "t")) 10)
                         (mkQuery (Some (SelOffset 0 (SelLimit 10 (SelBase "t"))))
                                  EmptyString VNil None false 10 0)
                         (SelOffset 0 (SelLimit 10 (SelBase "t")))
                         "id" (VInt 42) eq_refl eq_refl ltac:(discriminate)))).
Defined.

(** C2 (as stated) fails for a descending cursor column: after
    [Cursor("-id")], [PrevPage(42)] orders the inner query by ["id"],
    ascending, and the outer query by ["-id"], descending. *)
Lemma PrevPage_descending_cursor :
  buildWithCursor (PrevPage (VInt 42) (Cursor "-id" (newPaginator (Some (SelBase "t")) 10))) =
    Ok (mkQuery
          (Some (SelOrderBy "-id"
                   (SelSelectFrom "_q0.*" "? AS _q0"
                      (SelOffset 0
                         (SelWhere {[ "-id <"%string := VInt 42 ]}
                            (SelOrderBy "id"
                               (SelOffset 0 (SelLimit 10 (SelBase "t")))))))))
          "-id" (VInt 42) (Some {[ "-id <"%string := VInt 42 ]}) true 10 0) /\
  is_descending "id" = false /\ is_descending "-id" = true.
Proof. repeat split. Qed.

(** C3. After [Cursor(c)] with a column [c], [NextPage(v1)] stages [v1],
    sets the forward direction and the condition [c > v1] and nothing
    else; a following [NextPage(v2)] leaves the single condition
    [c > v2]; whatever the state before, a cursor step leaves exactly the
    one condition it builds; resolution orders by [c], filters by that
    condition and sets the offset to 0. *)
Theorem NextPage_replaces_condition pag pq s c v1 v2 :
  FastForward pag = Ok pq -> sel pq = Some s -> c <> EmptyString ->
  FastForward (NextPage v1 (Cursor c pag)) =
    Ok (mkQuery (Some s) c v1 (Some {[ (c ++ " >")%string := v1 ]}) false
                (pageSize pq) (pageNumber pq)) /\
  FastForward (NextPage v2 (NextPage v1 (Cursor c pag))) =
    Ok (mkQuery (Some s) c v2 (Some {[ (c ++ " >")%string := v2 ]}) false
                (pageSize pq) (pageNumber pq)) /\
  FastForward (NextPage v2 (PrevPage v1 (Cursor c pag))) =
    Ok (mkQuery (Some s) c v2 (Some {[ (c ++ " >")%string := v2 ]}) false
                (pageSize pq) (pageNumber pq)) /\
  FastForward (PrevPage v2 (NextPage v1 (Cursor c pag))) =
    Ok (mkQuery (Some s) c v2 (Some {[ (c ++ " <")%string := v2 ]}) true
                (pageSize pq) (pageNumber pq)) /\
  (forall q q' v,
     (NextPage_fn v q = Ok q' ->
        cursorCond q' = Some {[ (cursorColumn q ++ " >")%string := v ]}) /\
     (PrevPage_fn v q = Ok q' ->
        cursorCond q' = Some {[ (cursorColumn q ++ " <")%string := v ]})) /\
  buildWithCursor (NextPage v2 (NextPage v1 (Cursor c pag))) =
    Ok (mkQuery
          (Some (SelOffset 0
                   (SelWhere {[ (c ++ " >")%string := v2 ]} (SelOrderBy c s))))
          c v2 (Some {[ (c ++ " >")%string := v2 ]}) false
          (pageSize pq) (pageNumber pq)).
Proof.
  intros Hpag Hsel Hc.
  pose proof (FastForward_Cursor pag pq c Hpag) as Hcur.
  assert (H1 : FastForward (NextPage v1 (Cursor c pag)) =
               Ok (mkQuery (Some s) c v1 (Some {[ (c ++ " >")%string := v1 ]}) false
                           (pageSize pq) (pageNumber pq))).
  { unfold NextPage. rewrite FastForward_frame, Hcur. cbn [bind].
    rewrite NextPage_fn_column by done. cbn. by rewrite Hsel. }
  assert (H1' : FastForward (PrevPage v1 (Cursor c pag)) =
               Ok (mkQuery (Some s) c v1 (Some {[ (c ++ " <")%string := v1 ]}) true
                           (pageSize pq) (pageNumber pq))).
  { unfold PrevPage. rewrite FastForward_frame, Hcur. cbn [bind].
    rewrite PrevPage_fn_column by done. cbn. by rewrite Hsel. }
  assert (H2 : FastForward (NextPage v2 (NextPage v1 (Cursor c pag))) =
               Ok (mkQuery (Some s) c v2 (Some {[ (c ++ " >")%string := v2 ]}) false
                           (pageSize pq) (pageNumber pq))).
  { unfold NextPage at 1. rewrite FastForward_frame, H1. cbn [bind].
    by rewrite NextPage_fn_column. }
  split; [exact H1|]. split; [exact H2|]. split; [|split; [|split]].
  - unfold NextPage at 1. rewrite FastForward_frame, H1'. cbn [bind].
    by rewrite NextPage_fn_column.
  - unfold PrevPage at 1. rewrite FastForward_frame, H1. cbn [bind].
    by rewrite PrevPage_fn_column.
  - intros q q' v. unfold NextPage_fn, PrevPage_fn.
    destruct (_ && _); split; intros [= <-]; reflexivity.
  - unfold buildWithCursor. rewrite H2. cbn [bind cursorColumn].
    rewrite (String_eqb_empty c Hc). reflexivity.
Qed.

Lemma NextPage_replaces_condition_witness :
  buildWithCursor
    (NextPage (VInt 99) (NextPage (VInt 42) (Cursor "id" (newPaginator (Some (SelBase "t")) 10)))) =
    Ok (mkQuery
          (Some (SelOffset 0
                   (SelWhere {[ "id >"%string := VInt 99 ]}
                      (SelOrderBy "id" (SelOffset 0 (SelLimit 10 (SelBase "t")))))))
          "id" (VInt 99) (Some {[ "id >"%string := VInt 99 ]}) false 10 0).
Proof.
  apply (NextPage_replaces_condition
           (newPaginator (Some (SelBase "t")) 10)
           (mkQuery (Some (SelOffset 0 (SelLimit 10 (SelBase "t"))))
                    EmptyString VNil None false 10 0)
           (SelOffset 0 (SelLimit 10 (SelBase "t")))
           "id" (VInt 42) (VInt 99) eq_refl eq_refl ltac:(discriminate)).
Defined.

(** ** Page numbers *)




(** ** The fetch family *)

Lemma fetch_error m on_error pag e :
  buildWithCursor pag = Err e -> fetch m on_error pag = on_error e.
Proof. intros H. unfold fetch. by rewrite H. Qed.

Lemma fetch_ok m on_error pag pq s :
  buildWithCursor pag = Ok pq -> sel pq = Some s ->
  fetch m on_error pag = Delegated m s.
Proof. intros H Hs. unfold fetch. by rewrite H, Hs. Qed.

(** C8 (as amended). Every fetch operation resolves the chain with the
    cursor handling first. When resolution fails, the fetch method of the
    Selector is not called: [All], [One], [Query], [QueryRow], [Prepare]
    and their context variants return the error, the iterator operations
    return an iterator that carries it, the rendered-text accessor panics
    with its message, and the accessor of the bound arguments returns nil,
    the error being dropped. When resolution succeeds each operation
    returns what the same method of the resolved Selector returns. *)
Theorem fetch_family_resolution pag :
  (forall e, buildWithCursor pag = Err e ->
     All pag = ReturnedError e /\ One pag = ReturnedError e /\
     Query pag = ReturnedError e /\ QueryContext pag = ReturnedError e /\
     QueryRow pag = ReturnedError e /\ QueryRowContext pag = ReturnedError e /\
     Prepare pag = ReturnedError e /\ PrepareContext pag = ReturnedError e /\
     Iterator pag = ReturnedIterator e /\ IteratorContext pag = ReturnedIterator e /\
     String_ pag = Panicked (Some (error_message e)) /\
     Arguments pag = ReturnedNil) /\
  (forall pq s, buildWithCursor pag = Ok pq -> sel pq = Some s ->
     All pag = Delegated mAll s /\ One pag = Delegated mOne s /\
     Query pag = Delegated mQuery s /\ QueryContext pag = Delegated mQueryContext s /\
     QueryRow pag = Delegated mQueryRow s /\
     QueryRowContext pag = Delegated mQueryRowContext s /\
     Prepare pag = Delegated mPrepare s /\
     PrepareContext pag = Delegated mPrepareContext s /\
     Iterator pag = Delegated mIterator s /\
     IteratorContext pag = Delegated mIteratorContext s /\
     String_ pag = Delegated mString s /\
     Arguments pag = Delegated mArguments s).
Proof.
  unfold All, One, Query, QueryContext, QueryRow, QueryRowContext, Prepare,
    PrepareContext, Iterator, IteratorContext, String_, Arguments.
  split.
  - intros e H. rewrite !(fetch_error _ _ pag e H). repeat split.
  - intros pq s H Hs. rewrite !(fetch_ok _ _ pag pq s H Hs). repeat split.
Qed.

Lemma fetch_family_resolution_witness :
  Query (NextPage (VInt 2) (NextPage (VInt 1) (newPaginator (Some (SelBase "t")) 10)))
  = ReturnedError errMissingCursorColumn.
Proof.
  apply (proj1 (fetch_family_resolution
                  (NextPage (VInt 2) (NextPage (VInt 1)
                     (newPaginator (Some (SelBase "t")) 10))))
               errMissingCursorColumn eq_refl).
Defined.

(** C8 (as stated) fails for the accessor of the bound arguments: on a
    chain whose resolution fails it returns nil and the error is lost. *)
Lemma Arguments_drops_resolution_error :
  buildWithCursor (NextPage (VInt 2) (NextPage (VInt 1) (newPaginator (Some (SelBase "t")) 10)))
  = Err errMissingCursorColumn /\
  Arguments (NextPage (VInt 2) (NextPage (VInt 1) (newPaginator (Some (SelBase "t")) 10)))
  = ReturnedNil /\
  surfaces errMissingCursorColumn
    (Arguments (NextPage (VInt 2) (NextPage (VInt 1) (newPaginator (Some (SelBase "t")) 10))))
  = false.
Proof. repeat split. Qed.

(** ** Persistence of the chain *)

Section HeapChains.

Implicit Types (h ext : heap) (pag : option nat) (fn : frame_fn).

Lemma heap_chain_fuel fuel : forall h pag c fuel',
  heap_chain fuel h pag = Some c -> (fuel <= fuel')%nat ->
  heap_chain fuel' h pag = Some c.
Proof.
  induction fuel as [|fuel IH]; intros h pag c fuel' Hc Hle.
  - destruct pag; [done|]. by destruct fuel'.
  - destruct pag as [a|]; [|by destruct fuel'].
    destruct fuel' as [|fuel']; [lia|]. cbn [heap_chain] in *.
    destruct (h !! a) as [cl|]; [|done].
    destruct (heap_chain fuel h (cell_prev cl)) as [c'|] eqn:Hrec; [|done].
    by rewrite (IH h (cell_prev cl) c' fuel' Hrec ltac:(lia)).
Qed.

Lemma heap_chain_app fuel : forall h ext pag c,
  heap_chain fuel h pag = Some c -> heap_chain fuel (h ++ ext) pag = Some c.
Proof.
  induction fuel as [|fuel IH]; intros h ext pag c Hc.
  - by destruct pag.
  - destruct pag as [a|]; [|done]. cbn [heap_chain] in *.
    destruct (h !! a) as [cl|] eqn:Ha; [|done].
    rewrite (lookup_app_l_Some h ext a cl Ha).
    destruct (heap_chain fuel h (cell_prev cl)) as [c'|] eqn:Hrec; [|done].
    by rewrite (IH h ext (cell_prev cl) c' Hrec).
Qed.

(** In a well-formed heap every valid pointer leads to a chain. *)
Lemma heap_chain_defined h :
  heap_wf h -> forall a, (a < length h)%nat ->
  exists c, heap_chain (S a) h (Some a) = Some c.
Proof.
  intros Hwf a. induction a as [a IH] using lt_wf_ind. intros Ha.
  cbn [heap_chain]. destruct (lookup_lt_is_Some_2 h a Ha) as [cl Hcl].
  rewrite Hcl. destruct (cell_prev cl) as [p|] eqn:Hp.
  - pose proof (Hwf a cl p Hcl Hp) as Hlt.
    destruct (IH p Hlt ltac:(lia)) as [c Hc].
    rewrite (heap_chain_fuel (S p) h (Some p) c a Hc ltac:(lia)). by eexists.
  - destruct a; by eexists.
Qed.

Lemma heap_chain_valid h pag :
  heap_wf h -> heap_valid h pag ->
  exists c, heap_chain (length h) h pag = Some c.
Proof.
  intros Hwf Hv. destruct pag as [a|].
  - cbn in Hv. destruct (heap_chain_defined h Hwf a Hv) as [c Hc].
    exists c. by apply (heap_chain_fuel (S a)); [|lia].
  - exists nil_paginator. by destruct (length h).
Qed.

(** Allocation leaves what every existing handle resolves to unchanged. *)
Lemma heap_resolve_app h ext pag :
  heap_wf h -> heap_valid h pag ->
  heap_resolve (h ++ ext) pag = heap_resolve h pag.
Proof.
  intros Hwf Hv. destruct (heap_chain_valid h pag Hwf Hv) as [c Hc].
  unfold heap_resolve. rewrite Hc.
  rewrite (heap_chain_fuel (length h) (h ++ ext) pag c (length (h ++ ext))); [done| |].
  - by apply heap_chain_app.
  - rewrite length_app. lia.
Qed.

Lemma heap_frame_wf h pag fn :
  heap_wf h -> heap_valid h pag -> heap_wf (fst (heap_frame h pag fn)).
Proof.
  intros Hwf Hv a cl p Ha Hp. cbn [heap_frame fst] in Ha.
  destruct (lookup_app_Some h [mkCell (Some fn) pag] a cl) as [H _].
  destruct (H Ha) as [Hold|[Hlen Hnew]].
  - by apply (Hwf a cl p).
  - destruct (a - length h)%nat eqn:Hd; [|done].
    cbn in Hnew. injection Hnew as <-. cbn in Hp. subst pag. cbn in Hv. lia.
Qed.

Lemma heap_frame_valid h pag fn q :
  heap_valid h q -> heap_valid (fst (heap_frame h pag fn)) q.
Proof.
  destruct q as [a|]; [|done]. cbn. rewrite length_app. cbn. lia.
Qed.

(** The chain behind the handle that [frame] returns is the receiver's
    chain with the new frame on top. *)
Lemma heap_frame_chain h pag fn c :
  heap_wf h -> heap_chain (length h) h pag = Some c ->
  heap_chain (length (fst (heap_frame h pag fn))) (fst (heap_frame h pag fn))
             (snd (heap_frame h pag fn))
  = Some (frame c fn).
Proof.
  intros Hwf Hc. cbn [heap_frame fst snd]. rewrite length_app. cbn [length].
  rewrite Nat.add_1_r. cbn [heap_chain].
  rewrite lookup_app_r by lia. rewrite Nat.sub_diag. cbn [lookup list_lookup cell_prev cell_fn].
  by rewrite (heap_chain_app _ h _ pag c Hc).
Qed.

Lemma fluent_frame c op : frame c (fluent_fn op) = fluent_apply c op.
Proof. by destruct op. Qed.

(** A run of fluent calls from a handle. *)
Lemma heap_calls_run ops : forall h pag c h' p',
  heap_wf h -> heap_valid h pag ->
  heap_chain (length h) h pag = Some c ->
  heap_calls h pag ops = (h', p') ->
  heap_wf h' /\ heap_valid h' p' /\
  (exists ext, h' = h ++ ext) /\
  heap_chain (length h') h' p' = Some (fold_left fluent_apply ops c).
Proof.
  induction ops as [|op ops IH]; intros h pag c h' p' Hwf Hv Hc Hrun.
  - cbn in Hrun. injection Hrun as <- <-. repeat split; [done..| |done].
    exists []. by rewrite app_nil_r.
  - cbn [heap_calls] in Hrun. unfold heap_call in Hrun.
    pose proof (heap_frame_wf h pag (fluent_fn op) Hwf Hv) as Hwf1.
    pose proof (heap_frame_chain h pag (fluent_fn op) c Hwf Hc) as Hc1.
    rewrite fluent_frame in Hc1.
    destruct (heap_frame h pag (fluent_fn op)) as [h1 p1] eqn:Hf.
    cbn [fst snd] in *.
    assert (Hv1 : heap_valid h1 p1).
    { injection Hf as <- <-. cbn. rewrite length_app. cbn. lia. }
    destruct (IH h1 p1 _ h' p' Hwf1 Hv1 Hc1 Hrun) as (Hwf' & Hv' & [ext Hext] & Hc').
    repeat split; [done..| |done].
    injection Hf as <- <-. exists ([mkCell (Some (fluent_fn op)) pag] ++ ext).
    by rewrite Hext, <- app_assoc.
Qed.

End HeapChains.

(** C9. [frame], and with it every fluent operation, allocates a new
    cell whose [prev] is the receiver and changes no cell that exists: the
    heap is extended, every existing handle resolves to what it resolved
    to before, and the new handle resolves to the receiver's chain with
    the new frame applied last. Hence for two handles extended one after
    the other from a common ancestor, each resolves to the ancestor's
    frames followed by its own, whatever was appended to the other. *)
Theorem frame_never_mutates h anc :
  heap_wf h -> heap_valid h anc ->
  (forall fn,
     snd (heap_frame h anc fn) = Some (length h) /\
     h !! length h = None /\
     fst (heap_frame h anc fn) !! length h = Some (mkCell (Some fn) anc) /\
     (forall a c, h !! a = Some c -> fst (heap_frame h anc fn) !! a = Some c) /\
     (forall q, heap_valid h q ->
        heap_resolve (fst (heap_frame h anc fn)) q = heap_resolve h q)) /\
  (forall op, heap_call h anc op = heap_frame h anc (fluent_fn op)) /\
  (forall ops1 ops2 h1 p1 h2 p2,
     heap_calls h anc ops1 = (h1, p1) ->
     heap_calls h1 anc ops2 = (h2, p2) ->
     (forall a c, h !! a = Some c -> h2 !! a = Some c) /\
     exists c,
       heap_chain (length h) h anc = Some c /\
       heap_resolve h anc = Some (FastForward c) /\
       heap_resolve h2 anc = Some (FastForward c) /\
       heap_resolve h1 p1 = Some (FastForward (fold_left fluent_apply ops1 c)) /\
       heap_resolve h2 p1 = Some (FastForward (fold_left fluent_apply ops1 c)) /\
       heap_resolve h2 p2 = Some (FastForward (fold_left fluent_apply ops2 c))).
Proof.
  intros Hwf Hv. split; [|split].
  - intros fn. cbn [heap_frame fst snd]. repeat split.
    + by apply lookup_ge_None_2.
    + rewrite lookup_app_r by lia. by rewrite Nat.sub_diag.
    + intros a c Ha. by apply lookup_app_l_Some.
    + intros q Hq. by apply heap_resolve_app.
  - reflexivity.
  - intros ops1 ops2 h1 p1 h2 p2 Hrun1 Hrun2.
    destruct (heap_chain_valid h anc Hwf Hv) as [c Hc].
    destruct (heap_calls_run ops1 h anc c h1 p1 Hwf Hv Hc Hrun1)
      as (Hwf1 & Hv1 & [ext1 ->] & Hc1).
    assert (Hanc1 : heap_valid (h ++ ext1) anc).
    { destruct anc as [a|]; [|done]. cbn in *. rewrite length_app. lia. }
    assert (Hcanc1 : heap_chain (length (h ++ ext1)) (h ++ ext1) anc = Some c).
    { apply (heap_chain_fuel (length h)); [by apply heap_chain_app|].
      rewrite length_app. lia. }
    destruct (heap_calls_run ops2 (h ++ ext1) anc c h2 p2 Hwf1 Hanc1 Hcanc1 Hrun2)
      as (Hwf2 & Hv2 & [ext2 ->] & Hc2).
    split.
    + intros a cl Ha. by do 2 apply lookup_app_l_Some.
    + exists c. unfold heap_resolve at 1 3 5. rewrite Hc, Hc1, Hc2.
      split; [done|]. repeat split.
      * rewrite <- app_assoc, heap_resolve_app by done.
        unfold heap_resolve. by rewrite Hc.
      * rewrite heap_resolve_app by done. unfold heap_resolve. by rewrite Hc1.
Qed.

Lemma frame_never_mutates_witness :
  let r1 := heap_calls [mkCell None None] (Some O)
                       [OpCursor "id"; OpNextPage (VInt 1)] in
  let r2 := heap_calls (fst r1) (Some O) [OpPage 4] in
  heap_resolve (fst r2) (snd r1) =
    Some (FastForward (NextPage (VInt 1) (Cursor "id" empty_paginator))).
Proof.
  intros r1 r2.
  assert (Hwf : heap_wf [mkCell None None]).
  { intros a c p Ha Hp. destruct a as [|a]; [|by destruct a].
    cbn in Ha. injection Ha as <-. discriminate. }
  assert (Hv : heap_valid [mkCell None None] (Some O)) by (cbn; lia).
  destruct (proj2 (proj2 (frame_never_mutates [mkCell None None] (Some O) Hwf Hv))
              [OpCursor "id"; OpNextPage (VInt 1)] [OpPage 4]
              (fst r1) (snd r1) (fst r2) (snd r2) eq_refl eq_refl)
    as (_ & c & Hc & _ & _ & _ & Hp1 & _).
  cbn in Hc. injection Hc as <-. exact Hp1.
Defined.

(** ** Page counts: the float64 arithmetic of [TotalPages] *)

Section CeilArithmetic.




End CeilArithmetic.

Section Binary64.

Import Float64.




























End Binary64.

(** ** Page counts *)





(** * Further properties of the codec *)

Import Codec ArrayText.


(** ** Decoding array texts *)

Section ElementScan.

Lemma scan_spaces n : forall i buf res,
  scan_loop i (mkRegs stateOpenBracket buf res) (spaces n) =
  inr (mkRegs stateOpenBracket buf res).
Proof. induction n as [|n IH]; intros i buf res; [done|]. cbn. apply IH. Qed.

(** A bare literal goes on until a closing bracket or a comma. *)
Lemma scan_literal_body rest : forall i acc res,
  forallb (fun c => negb (existsb (Ascii.eqb c) [ch_rbrace; ch_comma])) rest = true ->
  scan_loop i (mkRegs stateLiteral (Some acc) res) rest =
  inr (mkRegs stateLiteral (Some (acc ++ rest)) res).
Proof.
  induction rest as [|c rest IH]; intros i acc res H.
  - cbn. by rewrite app_nil_r.
  - cbn [forallb existsb] in H. apply andb_true_iff in H as [Hc Hrest].
    rewrite orb_false_r in Hc. apply negb_true_iff, orb_false_iff in Hc as [H1 H2].
    cbn [scan_loop scan_step]. rewrite H1, H2. unfold append_buffer.
    cbn [string_of_buffer]. rewrite IH by done. by rewrite <- app_assoc.
Qed.

Lemma scan_element e i buf res :
  element_ok e = true ->
  scan_loop i (mkRegs stateOpenBracket buf res) (element_text e) =
  inr (after_element e buf res).
Proof.
  intros Hok. destruct e as [lead v trail|lead t]; cbn [element_text after_element].
  - rewrite scan_loop_app, scan_spaces.
    replace (ch_quote :: escape v ++ ch_quote :: spaces trail)
      with ((ch_quote :: escape v ++ [ch_quote]) ++ spaces trail)
      by (cbn; by rewrite <- app_assoc).
    by rewrite scan_loop_app, scan_loop_quoted, scan_spaces.
  - rewrite scan_loop_app, scan_spaces. destruct t as [|c rest]; [done|].
    cbn [element_ok bare_ok existsb] in Hok. apply andb_true_iff in Hok as [Hc Hrest].
    rewrite orb_false_r in Hc.
    apply negb_true_iff in Hc.
    apply orb_false_iff in Hc as [H1 Hc]. apply orb_false_iff in Hc as [H2 Hc].
    apply orb_false_iff in Hc as [H3 H4].
    cbn [scan_loop scan_step]. rewrite H1, H2, H3, H4.
    by rewrite scan_literal_body.
Qed.

Lemma after_element_comma e i buf res :
  string_of_buffer buf = [] ->
  scan_step i ch_comma (after_element e buf res) =
  inr (mkRegs stateOpenBracket (Some []) (res ++ [element_value e])).
Proof.
  intros Hbuf. destruct e as [lead v trail|lead [|c rest]]; cbn; by rewrite ?Hbuf.
Qed.

Lemma after_element_bracket e i buf res :
  (buf = None -> lone_empty [e] = false) -> string_of_buffer buf = [] ->
  exists buf',
    scan_step i ch_rbrace (after_element e buf res) =
    inr (mkRegs stateStop buf' (res ++ [element_value e])).
Proof.
  intros Hlone Hbuf. destruct e as [lead v trail|lead [|c rest]]; cbn; [by eexists| |by eexists].
  destruct buf as [b|]; [|by specialize (Hlone eq_refl)].
  cbn in Hbuf. subst b. by eexists.
Qed.

Lemma join_comma_cons x y rest :
  join_comma (x :: y :: rest) = x ++ ch_comma :: join_comma (y :: rest).
Proof. reflexivity. Qed.

Lemma scan_elements es : forall i buf res,
  es <> [] -> forallb element_ok es = true ->
  string_of_buffer buf = [] -> (buf = None -> lone_empty es = false) ->
  exists buf',
    scan_loop i (mkRegs stateOpenBracket buf res)
      (join_comma (map element_text es) ++ [ch_rbrace]) =
    inr (mkRegs stateStop buf' (res ++ map element_value es)).
Proof.
  induction es as [|e es IH]; intros i buf res Hne Hok Hbuf Hlone; [done|].
  cbn [forallb] in Hok. apply andb_true_iff in Hok as [He Hes].
  destruct es as [|e2 es].
  - cbn [map join_comma]. rewrite scan_loop_app, scan_element by done.
    cbn [scan_loop].
    destruct (after_element_bracket e (i + length (element_text e))%nat buf res Hlone Hbuf)
      as [buf' ->].
    by exists buf'.
  - cbn [map]. rewrite join_comma_cons, <- app_assoc.
    rewrite scan_loop_app, scan_element by done.
    cbn [app scan_loop]. rewrite after_element_comma by done.
    destruct (IH (S (i + length (element_text e))) (Some []) (res ++ [element_value e]))
      as [buf' Hrun]; [done|done|done|done|].
    cbn [map] in Hrun. rewrite Hrun. exists buf'. by rewrite <- app_assoc.
Qed.

End ElementScan.

(** X1. An array text whose elements are quoted literals (escaped as the
    encoder does) or well-formed bare literals, each possibly after
    spaces, decodes to the elements' values in order; an empty bare
    literal gives an empty string, except when it is the only element. *)
Theorem StringArray_Scan_array_text a es :
  forallb element_ok es = true -> lone_empty es = false ->
  StringArray_Scan a (DVBytes (array_text es)) = (Some (map element_value es), None).
Proof.
  intros Hok Hlone. destruct (decide (es = [])) as [->|Hne]; [reflexivity|].
  unfold StringArray_Scan, array_text, scan_bytes. cbn [skipn]. rewrite drop_0.
  destruct (scan_elements es 1%nat None [] Hne Hok eq_refl (fun _ => Hlone)) as [buf' ->].
  reflexivity.
Qed.

Lemma StringArray_Scan_array_text_witness :
  StringArray_Scan None
    (DVBytes (gostr "{ a b,," ++ ch_quote :: gostr "x,y" ++ ch_quote :: gostr " ,NULL}")) =
  (Some [gostr "a b"; []; gostr "x,y"; gostr "NULL"], None).
Proof.
  apply (StringArray_Scan_array_text None
           [Bare 1 (gostr "a b"); Bare 0 []; Quoted 0 (gostr "x,y") 1; Bare 0 (gostr "NULL")]);
    reflexivity.
Defined.

(** ** What the scanner keeps *)

Lemma scan_step_results i c r r' :
  scan_step i c r = inr r' -> r_results r `prefix_of` r_results r'.
Proof.
  destruct r as [st buf res].
  destruct st; cbn [scan_step]; try done;
    repeat (match goal with |- context [if ?b then _ else _] => destruct b end);
    try destruct buf; intros [= <-]; cbn [r_results];
    (done || by apply prefix_app_r).
Qed.

Lemma scan_loop_results xs : forall i r r',
  scan_loop i r xs = inr r' -> r_results r `prefix_of` r_results r'.
Proof.
  induction xs as [|c xs IH]; intros i r r'; cbn [scan_loop].
  - by intros [= <-].
  - destruct (scan_step i c r) as [e|r1] eqn:H1; [done|]. intros H.
    etrans; [by eapply scan_step_results|by eapply IH].
Qed.

(** X2. The decoder never revises an element: if a source is decoded
    without error, so is each of its non-empty prefixes, and to a prefix of
    the same elements. *)
Theorem StringArray_Scan_prefix a b ext l' :
  b <> [] ->
  StringArray_Scan a (DVBytes (b ++ ext)) = (Some l', None) ->
  exists l, StringArray_Scan a (DVBytes b) = (Some l, None) /\ l `prefix_of` l'.
Proof.
  intros Hb. destruct b as [|c0 xs]; [done|].
  unfold StringArray_Scan, scan_bytes. cbn [app skipn]. rewrite !drop_0.
  rewrite scan_loop_app.
  destruct (scan_loop 1 _ xs) as [e|r] eqn:Hr; [done|].
  destruct (scan_loop _ r ext) as [e|r'] eqn:Hr'; [done|].
  intros [= <-]. exists (r_results r). split; [done|].
  by eapply scan_loop_results.
Qed.

Lemma StringArray_Scan_prefix_witness :
  exists l, StringArray_Scan None (DVBytes (gostr "{a,b")) = (Some l, None) /\
            l `prefix_of` [gostr "a"; gostr "b"; gostr "c"].
Proof.
  apply (StringArray_Scan_prefix None (gostr "{a,b") (gostr ",c}")); [discriminate|reflexivity].
Defined.

(** ** Encoding *)

Lemma StringArray_round_trip_all a0 a :
  StringArray_Scan a0 (StringArray_Value a) = (a, None).
Proof. destruct a as [l|]; [apply StringArray_round_trip|reflexivity]. Qed.

Lemma Int64Array_round_trip_all a0 a :
  (forall l, a = Some l -> Forall in_int64 l) ->
  Int64Array_Scan a0 (Int64Array_Value a) = Returns (a, None).
Proof.
  intros H. destruct a as [l|]; [|reflexivity].
  apply Int64Array_round_trip. by apply H.
Qed.

(** X3. Encoding loses nothing: two string arrays with the same
    encoding are equal, and so are two arrays of [int64]; the nil array is
    the only one encoded as nil, and the empty array the only one encoded
    as the two brackets. *)
Theorem Value_injective :
  (forall a b, StringArray_Value a = StringArray_Value b -> a = b) /\
  (forall a b,
     (forall l, a = Some l -> Forall in_int64 l) ->
     (forall l, b = Some l -> Forall in_int64 l) ->
     Int64Array_Value a = Int64Array_Value b -> a = b) /\
  (forall a, StringArray_Value a = DVNil <-> a = None) /\
  (forall a, StringArray_Value a = DVBytes [ch_lbrace; ch_rbrace] <-> a = Some []).
Proof.
  assert (Hinj : forall a b, StringArray_Value a = StringArray_Value b -> a = b).
  { intros a b H.
    pose proof (StringArray_round_trip_all None a) as Ha.
    pose proof (StringArray_round_trip_all None b) as Hb.
    rewrite H in Ha. congruence. }
  split; [exact Hinj|]. split; [|split].
  - intros a b Ha Hb H.
    pose proof (Int64Array_round_trip_all None a Ha) as Ra.
    pose proof (Int64Array_round_trip_all None b Hb) as Rb.
    rewrite H in Ra. congruence.
  - intros a. split; [|by intros ->]. intros H. by apply Hinj.
  - intros a. split; [|by intros ->]. intros H. by apply Hinj.
Qed.

Lemma Value_injective_witness :
  Some [5; -3] = Some [5; -3].
Proof.
  apply (proj1 (proj2 Value_injective) (Some [5; -3]) (Some [5; -3])).
  - intros l [= <-]. repeat constructor; discriminate.
  - intros l [= <-]. repeat constructor; discriminate.
  - reflexivity.
Defined.

Lemma escape_length v : (length v <= length (escape v) <= 2 * length v)%nat.
Proof.
  induction v as [|c v IH]; [cbn; lia|].
  rewrite escape_cons, length_app. destruct (is_special c); cbn [length]; lia.
Qed.

Lemma formatBits_length fuel : forall u acc,
  (length (formatBits fuel u acc) <= fuel + length acc)%nat.
Proof.
  induction fuel as [|fuel IH]; intros u acc; cbn [formatBits]; [lia|].
  destruct (u / 10 =? 0); [cbn [length]; lia|].
  etrans; [apply IH|]. cbn [length]. lia.
Qed.

Lemma formatBits_nonempty fuel u acc :
  (0 < fuel)%nat -> (length acc < length (formatBits fuel u acc))%nat.
Proof.
  revert u acc. induction fuel as [|fuel IH]; intros u acc Hf; [lia|].
  cbn [formatBits]. destruct (u / 10 =? 0); [cbn [length]; lia|].
  destruct fuel as [|fuel']; [cbn [formatBits length]; lia|].
  etrans; [|apply IH; lia]. cbn [length]. lia.
Qed.

Lemma AppendInt_length i : (1 <= length (AppendInt [] i) <= 21)%nat.
Proof.
  unfold AppendInt. cbn [app]. destruct (i <? 0); cbn [length].
  - pose proof (formatBits_length 20 (- i) []). cbn [length] in *. lia.
  - pose proof (formatBits_length 20 i []).
    pose proof (formatBits_nonempty 20 i [] ltac:(lia)). cbn [length] in *. lia.
Qed.

(** X4. The size of an encoding. For [n > 0] strings the bytes are the
    two brackets, [n - 1] commas, two quotes for each string, and each
    string's bytes once or, where escaped, twice: at least the [3 n + 1]
    that [Value] reserves. For [n > 0] integers they are at least the
    [2 n + 1] reserved and at most [22 n + 1]. *)
Theorem Value_length :
  (forall l, l <> [] ->
     exists b, StringArray_Value (Some l) = DVBytes b /\
       (3 * length l + 1 + list_sum (map length l) <= length b
        <= 3 * length l + 1 + 2 * list_sum (map length l))%nat) /\
  (forall l, l <> [] ->
     exists b, Int64Array_Value (Some l) = DVBytes b /\
       (2 * length l + 1 <= length b <= 22 * length l + 1)%nat).
Proof.
  split; intros l Hl; destruct l as [|a0 tl]; try done.
  - rewrite StringArray_Value_cons. eexists. split; [reflexivity|].
    cbn [map]. repeat (rewrite length_app || cbn [length]).
    pose proof (escape_length a0).
    assert (Htl : (3 * length tl + list_sum (map length tl)
                   <= length (flat_map (fun ai => ch_comma :: ch_quote :: escape ai ++ [ch_quote]) tl)
                   <= 3 * length tl + 2 * list_sum (map length tl))%nat).
    { clear. induction tl as [|x tl IH]; [cbn; lia|].
      unfold list_sum in *. cbn [flat_map map fold_right].
      repeat (rewrite length_app || cbn [length]).
      pose proof (escape_length x). lia. }
    unfold list_sum in *. cbn [fold_right]. lia.
  - unfold Int64Array_Value. rewrite fold_AppendInt, AppendInt_app.
    eexists. split; [reflexivity|].
    repeat (rewrite length_app || cbn [length]).
    pose proof (AppendInt_length a0).
    assert (Htl : (2 * length tl
                   <= length (flat_map (fun ai => ch_comma :: AppendInt [] ai) tl)
                   <= 22 * length tl)%nat).
    { clear. induction tl as [|x tl IH]; [cbn; lia|].
      cbn [flat_map]. repeat (rewrite length_app || cbn [length]).
      pose proof (AppendInt_length x). lia. }
    lia.
Qed.

Lemma Value_length_witness :
  exists b, StringArray_Value (Some [gostr "a"; gostr "b\c"]) = DVBytes b /\
    (3 * 2 + 1 + 4 <= length b <= 3 * 2 + 1 + 2 * 4)%nat.
Proof.
  apply (proj1 Value_length [gostr "a"; gostr "b\c"]). discriminate.
Defined.

(** ** Decoding integers *)

(** X5. [Int64Array.Scan] panics on a byte source of exactly one byte
    and on nothing else; of a longer source it drops the first and the
    last byte without looking at them. *)
Theorem Int64Array_Scan_brackets a :
  (forall src, Int64Array_Scan a src = Panics <-> exists c, src = DVBytes [c]) /\
  (forall c1 c1' c2 c2' body,
     Int64Array_Scan a (DVBytes (c1 :: body ++ [c2])) =
     Int64Array_Scan a (DVBytes (c1' :: body ++ [c2']))).
Proof.
  split.
  - intros src. split.
    + unfold Int64Array_Scan. destruct src as [|b| |]; try done.
      destruct b as [|c [|c' b]]; [done|by exists c|].
      cbn [length Nat.ltb Nat.leb]. destruct (take _ _); [done|].
      by destruct (parse_parts _ _).
    + by intros [c ->].
  - intros c1 c1' c2 c2' body. unfold Int64Array_Scan.
    cbn [length]. rewrite !length_app. cbn [length skipn]. rewrite !drop_0.
    replace (S (length body + 1) - 1 - 1)%nat with (length body) by lia.
    rewrite !take_app_length. by replace (S (length body + 1) <? 2)%nat with false
      by (symmetry; apply Nat.ltb_ge; lia).
Qed.

Lemma Int64Array_Scan_brackets_witness :
  Int64Array_Scan None (DVBytes (gostr "}")) = Panics.
Proof.
  apply (proj1 (Int64Array_Scan_brackets None)). by exists "}"%char.
Defined.

Lemma Split_join_comma tokens :
  tokens <> [] -> Forall no_comma tokens ->
  Split (join_comma tokens) ch_comma = tokens.
Proof.
  induction tokens as [|t tokens IH]; intros Hne Hall; [done|].
  inversion Hall as [|? ? Ht Hrest]; subst.
  destruct tokens as [|t2 tokens].
  - cbn [join_comma]. rewrite <- (app_nil_r t) at 1.
    rewrite (Split_no_sep t ch_comma [] [] [] Ht eq_refl). by rewrite app_nil_r.
  - rewrite join_comma_cons.
    rewrite (Split_no_sep t ch_comma _ [] (t2 :: tokens) Ht).
    + by rewrite app_nil_r.
    + cbn [Split]. change (Ascii.eqb ch_comma ch_comma) with true. cbv iota.
      by rewrite IH.
Qed.

Lemma parse_parts_values tokens : forall vs results,
  Forall2 (fun t v => ParseInt t = inl v) tokens vs ->
  parse_parts tokens results = inr (results ++ vs).
Proof.
  induction tokens as [|t tokens IH]; intros vs results H;
    inversion H as [|? v ? vs' Ht Hrest]; subst; cbn [parse_parts].
  - by rewrite app_nil_r.
  - rewrite Ht, (IH vs') by done. by rewrite <- app_assoc.
Qed.

Lemma parse_parts_first_error pre : forall bad post e results,
  Forall (fun t => exists v, ParseInt t = inl v) pre ->
  ParseInt bad = inr e ->
  parse_parts (pre ++ bad :: post) results = inl e.
Proof.
  induction pre as [|t pre IH]; intros bad post e results Hpre Hbad; cbn [app parse_parts].
  - by rewrite Hbad.
  - inversion Hpre as [|? ? [v Hv] Hrest]; subst. rewrite Hv. by apply IH.
Qed.

Lemma Int64Array_Scan_body a body :
  body <> [] ->
  Int64Array_Scan a (DVBytes (ch_lbrace :: body ++ [ch_rbrace])) =
  match parse_parts (Split body ch_comma) [] with
  | inl err => Returns (a, Some (ErrParseInt err))
  | inr results => Returns (Some results, None)
  end.
Proof.
  intros Hb. unfold Int64Array_Scan.
  cbn [length]. rewrite length_app. cbn [length skipn]. rewrite drop_0.
  replace (S (length body + 1) - 1 - 1)%nat with (length body) by lia.
  rewrite take_app_length.
  replace (S (length body + 1) <? 2)%nat with false by (symmetry; apply Nat.ltb_ge; lia).
  by destruct body.
Qed.

Lemma join_comma_nil tokens :
  tokens <> [] -> tokens <> [[]] -> join_comma tokens <> [].
Proof.
  destruct tokens as [|t [|t2 tokens]]; [done| |].
  - cbn. congruence.
  - intros _ _. rewrite join_comma_cons. by destruct t.
Qed.

(** X6. Decoding a bracketed, comma-separated text of tokens: when
    every token is an integer for [strconv.ParseInt] the result is their
    values in order; otherwise the decode fails with the error of the
    first token that is not, whatever comes after it, and the receiver is
    kept. An empty token is such an error unless it is the whole body,
    which is the empty array. *)
Theorem Int64Array_Scan_tokens a tokens :
  tokens <> [] -> tokens <> [[]] -> Forall no_comma tokens ->
  (forall vs, Forall2 (fun t v => ParseInt t = inl v) tokens vs ->
     Int64Array_Scan a (DVBytes (ch_lbrace :: join_comma tokens ++ [ch_rbrace]))
     = Returns (Some vs, None)) /\
  (forall pre bad post e,
     tokens = pre ++ bad :: post ->
     Forall (fun t => exists v, ParseInt t = inl v) pre ->
     ParseInt bad = inr e ->
     Int64Array_Scan a (DVBytes (ch_lbrace :: join_comma tokens ++ [ch_rbrace]))
     = Returns (a, Some (ErrParseInt e))) /\
  ParseInt [] = inr ErrSyntax /\
  Int64Array_Scan a (DVBytes [ch_lbrace; ch_rbrace]) = Returns (Some [], None).
Proof.
  intros Hne Hne' Hall.
  pose proof (join_comma_nil tokens Hne Hne') as Hbody.
  rewrite (Int64Array_Scan_body a _ Hbody), (Split_join_comma tokens Hne Hall).
  split; [|split; [|split; reflexivity]].
  - intros vs Hvs. by rewrite (parse_parts_values tokens vs []).
  - intros pre bad post e -> Hpre Hbad.
    by rewrite (parse_parts_first_error pre bad post e [] Hpre Hbad).
Qed.

Lemma Int64Array_Scan_tokens_witness :
  Int64Array_Scan (Some [9]) (DVBytes (gostr "{1,,x}")) =
  Returns (Some [9], Some (ErrParseInt ErrSyntax)).
Proof.
  apply (proj1 (proj2 (Int64Array_Scan_tokens (Some [9]) [gostr "1"; []; gostr "x"]
                         ltac:(discriminate) ltac:(discriminate)
                         ltac:(repeat constructor)))
               [gostr "1"] [] [gostr "x"] ErrSyntax eq_refl).
  - repeat constructor. by exists 1.
  - reflexivity.
Defined.

(** The digit loop on any digit string: its value, or a range error
    when the value is beyond 64 bits. *)
Lemma ParseUint_loop_value ds : forall n,
  0 <= n <= maxUint64 -> Forall is_digit ds ->
  ParseUint_loop n ds =
  if digits_value n ds <=? maxUint64 then inl (digits_value n ds) else inr ErrRange.
Proof.
  induction ds as [|c ds IH]; intros n Hn Hall.
  - unfold digits_value. cbn [fold_left ParseUint_loop].
    destruct (Z.leb_spec n maxUint64) as [H|H]; [done|lia].
  - inversion Hall as [|? ? (d & Hd & Hr) Hall']; subst.
    cbn [ParseUint_loop]. rewrite Hd.
    assert (Hstep : digits_value n (c :: ds) = digits_value (n * 10 + d) ds).
    { unfold digits_value. cbn [fold_left]. by rewrite Hd. }
    rewrite Hstep.
    pose proof (digits_value_mono ds (n * 10 + d) ltac:(lia) Hall') as Hmono.
    unfold maxUint64 in *.
    change (2 ^ 64 - 1) with 18446744073709551615 in *.
    change (18446744073709551615 / 10 + 1) with 1844674407370955162.
    destruct (Z.leb_spec 1844674407370955162 n) as [Hcut|Hcut].
    { destruct (Z.leb_spec (digits_value (n * 10 + d) ds) 18446744073709551615); [lia|done]. }
    destruct (Z.ltb_spec 18446744073709551615 (n * 10 + d)) as [Hov|Hov].
    { destruct (Z.leb_spec (digits_value (n * 10 + d) ds) 18446744073709551615); [lia|done]. }
    apply IH; [lia|done].
Qed.

Lemma is_digit_no_sign c : is_digit c ->
  Ascii.eqb c ch_plus = false /\ Ascii.eqb c ch_minus = false /\
  Ascii.eqb c ch_comma = false.
Proof. intros H. repeat split; by apply is_digit_not. Qed.

(** [strconv.ParseInt] on a signed digit string. *)
Lemma ParseInt_token t :
  token_ok t ->
  ParseInt (token_text t) =
  if in_int64b (token_value t) then inl (token_value t) else inr ErrRange.
Proof.
  destruct t as [sg ds]. intros [Hne Hall]. cbn [fst snd] in *.
  assert (Hu : ParseUint ds =
               if digits_value 0 ds <=? maxUint64 then inl (digits_value 0 ds)
               else inr ErrRange).
  { destruct ds as [|c ds]; [done|]. unfold ParseUint.
    apply ParseUint_loop_value; [unfold maxUint64; lia|done]. }
  pose proof (digits_value_mono ds 0 ltac:(lia) Hall) as Hpos.
  unfold token_text, token_value, in_int64b, minInt64, maxInt64. cbn [fst snd].
  unfold maxUint64 in Hu.
  change (2 ^ 64 - 1) with 18446744073709551615 in *.
  change (2 ^ 63 - 1) with 9223372036854775807.
  change (- 2 ^ 63) with (-9223372036854775808).
  destruct sg; cbn [signed_text signed_value].
  - destruct ds as [|c ds]; [done|].
    inversion Hall as [|? ? Hc _]; subst.
    destruct (is_digit_no_sign c Hc) as (Hp & Hm & _).
    unfold ParseInt. rewrite Hp, Hm, Hu. cbn [negb andb].
    change (2 ^ 63) with 9223372036854775808. unfold maxUint64.
    change (2 ^ 64 - 1) with 18446744073709551615.
    destruct (Z.leb_spec (digits_value 0 (c :: ds)) 18446744073709551615).
    + destruct (Z.leb_spec 9223372036854775808 (digits_value 0 (c :: ds)));
      destruct (Z.leb_spec (-9223372036854775808) (digits_value 0 (c :: ds)));
      destruct (Z.leb_spec (digits_value 0 (c :: ds)) 9223372036854775807);
      cbn [andb]; try lia; done.
    + change (9223372036854775808 <=? 18446744073709551615) with true.
      change (9223372036854775808 <? 18446744073709551615) with true.
      cbv iota.
      destruct (Z.leb_spec (-9223372036854775808) (digits_value 0 (c :: ds)));
      destruct (Z.leb_spec (digits_value 0 (c :: ds)) 9223372036854775807);
      cbn [andb]; try lia; done.
  - unfold ParseInt. change (Ascii.eqb ch_plus ch_plus) with true.
    change (Ascii.eqb ch_plus ch_minus) with false. cbv iota. rewrite Hu. cbn [negb andb].
    change (2 ^ 63) with 9223372036854775808. unfold maxUint64.
    change (2 ^ 64 - 1) with 18446744073709551615.
    destruct (Z.leb_spec (digits_value 0 ds) 18446744073709551615).
    + destruct (Z.leb_spec 9223372036854775808 (digits_value 0 ds));
      destruct (Z.leb_spec (-9223372036854775808) (digits_value 0 ds));
      destruct (Z.leb_spec (digits_value 0 ds) 9223372036854775807);
      cbn [andb]; try lia; done.
    + change (9223372036854775808 <=? 18446744073709551615) with true.
      change (9223372036854775808 <? 18446744073709551615) with true.
      cbv iota.
      destruct (Z.leb_spec (-9223372036854775808) (digits_value 0 ds));
      destruct (Z.leb_spec (digits_value 0 ds) 9223372036854775807);
      cbn [andb]; try lia; done.
  - unfold ParseInt. change (Ascii.eqb ch_minus ch_plus) with false.
    change (Ascii.eqb ch_minus ch_minus) with true. cbv iota. rewrite Hu. cbn [negb andb].
    change (2 ^ 63) with 9223372036854775808. unfold maxUint64.
    change (2 ^ 64 - 1) with 18446744073709551615.
    destruct (Z.leb_spec (digits_value 0 ds) 18446744073709551615).
    + destruct (Z.ltb_spec 9223372036854775808 (digits_value 0 ds));
      destruct (Z.leb_spec (-9223372036854775808) (- digits_value 0 ds));
      destruct (Z.leb_spec (- digits_value 0 ds) 9223372036854775807);
      cbn [andb]; try lia; done.
    + change (9223372036854775808 <=? 18446744073709551615) with true.
      change (9223372036854775808 <? 18446744073709551615) with true.
      cbv iota.
      destruct (Z.leb_spec (-9223372036854775808) (- digits_value 0 ds));
      destruct (Z.leb_spec (- digits_value 0 ds) 9223372036854775807);
      cbn [andb]; try lia; done.
Qed.

Lemma all_digits_spec ds : all_digits ds = true -> Forall is_digit ds.
Proof.
  unfold all_digits. rewrite forallb_forall, List.Forall_forall.
  intros H c Hc. specialize (H c Hc).
  destruct (digit_of c) as [d|] eqn:Hd; [|done].
  exists d. split; [done|]. unfold digit_of in Hd.
  destruct (_ && _) eqn:Hb; [|done].
  apply andb_prop in Hb as [H1 H2]. apply Z.leb_le in H1, H2.
  injection Hd as <-. lia.
Qed.

Lemma token_text_no_comma t : token_ok t -> no_comma (token_text t).
Proof.
  destruct t as [sg ds]. intros [_ Hall]. cbn [snd] in Hall.
  assert (Hds : no_comma ds).
  { unfold no_comma. eapply Forall_impl; [exact Hall|].
    intros c Hc. by apply is_digit_no_sign. }
  unfold token_text. cbn [fst snd].
  destruct sg; cbn [signed_text]; [done| |]; by constructor.
Qed.

Lemma token_text_nonempty t : token_ok t -> token_text t <> [].
Proof.
  destruct t as [sg ds]. intros [Hne _]. cbn [snd] in Hne.
  unfold token_text. cbn [fst snd]. by destruct sg, ds.
Qed.

Lemma parse_parts_tokens toks : forall results,
  Forall token_ok toks ->
  parse_parts (map token_text toks) results =
  if forallb (fun t => in_int64b (token_value t)) toks
  then inr (results ++ map token_value toks) else inl ErrRange.
Proof.
  induction toks as [|t toks IH]; intros results Hall; cbn [map parse_parts forallb].
  - by rewrite app_nil_r.
  - inversion Hall as [|? ? Ht Hrest]; subst.
    rewrite (ParseInt_token t Ht).
    destruct (in_int64b (token_value t)); cbn [andb]; [|done].
    rewrite (IH _ Hrest), <- app_assoc. done.
Qed.

(** X7. An integer array text made of decimal tokens, each an optional
    sign ([+] as well as [-]) and one or more digits, leading zeros
    included, decodes to the tokens' values when every value fits an
    [int64]; when one does not, the decode fails with a range error and
    the receiver is kept. *)
Theorem Int64Array_Scan_decimal a toks :
  toks <> [] -> Forall token_ok toks ->
  Int64Array_Scan a (DVBytes (ch_lbrace :: join_comma (map token_text toks) ++ [ch_rbrace])) =
  if forallb (fun t => in_int64b (token_value t)) toks
  then Returns (Some (map token_value toks), None)
  else Returns (a, Some (ErrParseInt ErrRange)).
Proof.
  intros Hne Hall.
  assert (Hne1 : map token_text toks <> []) by by destruct toks.
  assert (Hne2 : map token_text toks <> [[]]).
  { destruct toks as [|t [|t2 toks]]; [done| |done]. cbn [map].
    inversion Hall as [|? ? Ht _]; subst.
    pose proof (token_text_nonempty t Ht). congruence. }
  assert (Hnc : Forall no_comma (map token_text toks)).
  { apply Forall_map. eapply Forall_impl; [exact Hall|]. apply token_text_no_comma. }
  rewrite (Int64Array_Scan_body a _ (join_comma_nil _ Hne1 Hne2)).
  rewrite (Split_join_comma _ Hne1 Hnc), (parse_parts_tokens toks [] Hall).
  by destruct (forallb _ toks).
Qed.

Lemma Int64Array_Scan_decimal_witness :
  Int64Array_Scan None (DVBytes (gostr "{+007,-9223372036854775808,0}")) =
  Returns (Some [7; -9223372036854775808; 0], None).
Proof.
  apply (Int64Array_Scan_decimal None
           [(Plus, gostr "007"); (Minus, gostr "9223372036854775808"); (NoSign, gostr "0")]).
  - discriminate.
  - repeat (apply List.Forall_cons; [split; [discriminate|by apply all_digits_spec]|]).
    apply List.Forall_nil.
Defined.

(** ** The texts that the encoders write *)

Lemma digit_char_nonzero d : 1 <= d <= 9 -> Ascii.eqb (digit_char d) "0" = false.
Proof.
  intros H.
  assert (Hd : d = 1 \/ d = 2 \/ d = 3 \/ d = 4 \/ d = 5 \/ d = 6 \/
               d = 7 \/ d = 8 \/ d = 9) by lia.
  repeat (destruct Hd as [-> | Hd]; [reflexivity|]). by subst.
Qed.

(** The first digit written for a positive number is not a zero. *)
Lemma formatBits_lead fuel : forall u acc,
  0 < u < 10 ^ Z.of_nat fuel ->
  exists c ds, formatBits fuel u acc = c :: ds ++ acc /\ Ascii.eqb c "0" = false.
Proof.
  induction fuel as [|fuel IH]; intros u acc Hu; [cbn in Hu; lia|].
  cbn [formatBits].
  destruct (Z.eqb_spec (u / 10) 0) as [Hq|Hq].
  - exists (digit_char (u mod 10)), []. split; [done|].
    apply digit_char_nonzero.
    pose proof (Z.div_mod u 10 ltac:(lia)). pose proof (Z.mod_pos_bound u 10 ltac:(lia)). lia.
  - assert (Hq' : 0 < u / 10 < 10 ^ Z.of_nat fuel).
    { split; [pose proof (Z.div_pos u 10 ltac:(lia) ltac:(lia)); lia|].
      apply Z.div_lt_upper_bound; [lia|].
      rewrite Nat2Z.inj_succ, Z.pow_succ_r in Hu by lia. lia. }
    destruct (IH (u / 10) (digit_char (u mod 10) :: acc) Hq') as (c & ds & Heq & Hc).
    exists c, (ds ++ [digit_char (u mod 10)]). split; [|done].
    rewrite Heq. by rewrite <- app_assoc.
Qed.

Lemma Forall_is_digit_all ds : Forall is_digit ds -> all_digits ds = true.
Proof.
  unfold all_digits. rewrite forallb_forall, List.Forall_forall.
  intros H c Hc. destruct (H c Hc) as (d & -> & _). done.
Qed.

(** [strconv.AppendInt] writes a canonical token of the number. *)
Lemma AppendInt_canonical i :
  in_int64 i ->
  exists t, AppendInt [] i = token_text t /\ token_value t = i /\
            token_ok t /\ canonical t = true.
Proof.
  intros [Hlo Hhi]. unfold minInt64, maxInt64 in *.
  change (2 ^ 63) with 9223372036854775808 in *.
  unfold AppendInt. cbn [app].
  destruct (Z.ltb_spec i 0) as [Hneg|Hpos].
  - destruct (formatBits_digits 20 (- i) []) as (ds & Heq & Hne & Hall & Hval); [lia| |].
    { change (10 ^ Z.of_nat 20) with 100000000000000000000. lia. }
    destruct (formatBits_lead 20 (- i) []) as (c & ds' & Heq' & Hc).
    { change (10 ^ Z.of_nat 20) with 100000000000000000000. lia. }
    rewrite app_nil_r in Heq. rewrite app_nil_r in Heq'.
    exists (Minus, ds). unfold token_text, token_value, token_ok, canonical. cbn [fst snd].
    cbn [signed_text signed_value]. rewrite Heq, Hval.
    split; [done|]. split; [lia|]. split; [done|].
    rewrite <- Heq, Heq'. rewrite Hc. by destruct ds'.
  - destruct (formatBits_digits 20 i []) as (ds & Heq & Hne & Hall & Hval); [lia| |].
    { change (10 ^ Z.of_nat 20) with 100000000000000000000. lia. }
    rewrite app_nil_r in Heq.
    exists (NoSign, ds). unfold token_text, token_value, token_ok, canonical. cbn [fst snd].
    cbn [signed_text signed_value]. rewrite Heq, Hval.
    split; [done|]. split; [lia|]. split; [done|].
    destruct (Z.eq_dec i 0) as [->|Hnz].
    + rewrite <- Heq. reflexivity.
    + destruct (formatBits_lead 20 i []) as (c & ds' & Heq' & Hc).
      { change (10 ^ Z.of_nat 20) with 100000000000000000000. lia. }
      rewrite app_nil_r in Heq'. rewrite <- Heq, Heq', Hc. by destruct ds'.
Qed.

Lemma flat_map_join_comma {A} (f : A -> bytes) x l :
  f x ++ flat_map (fun y => ch_comma :: f y) l = join_comma (map f (x :: l)).
Proof.
  revert x. induction l as [|y l IH]; intros x; cbn [flat_map map].
  - by rewrite app_nil_r.
  - change (join_comma (f x :: f y :: map f l))
      with (f x ++ ch_comma :: join_comma (map f (y :: l))).
    by rewrite <- IH.
Qed.

(** X8. The text that the encoders write for a present sequence. For
    strings: between brackets, every element between double quotes, with
    a backslash before each double quote and backslash of the element,
    commas between the elements and no space. For integers: between
    brackets and separated by commas, one canonical decimal token for
    each number, with a minus sign for a negative one, no plus sign and
    no leading zero. *)
Theorem Value_text :
  (forall l,
     StringArray_Value (Some l) =
     DVBytes (array_text (map (fun v => Quoted 0 v 0) l))) /\
  (forall l, Forall in_int64 l ->
     exists toks,
       Int64Array_Value (Some l) =
       DVBytes (ch_lbrace :: join_comma (map token_text toks) ++ [ch_rbrace]) /\
       map token_value toks = l /\
       Forall token_ok toks /\ forallb canonical toks = true).
Proof.
  split.
  - intros [|a0 tl]; [done|].
    rewrite StringArray_Value_cons. unfold array_text. rewrite map_map.
    rewrite <- (flat_map_join_comma (fun v => element_text (Quoted 0 v 0)) a0 tl).
    cbn [element_text spaces repeat app]. f_equal. f_equal.
    by rewrite <- !app_assoc.
  - intros l Hall.
    assert (Htoks : exists toks, map (AppendInt []) l = map token_text toks /\
                      map token_value toks = l /\ Forall token_ok toks /\
                      forallb canonical toks = true).
    { induction Hall as [|i l Hi Hl IH]; [by exists []|].
      destruct IH as (toks & H1 & H2 & H3 & H4).
      destruct (AppendInt_canonical i Hi) as (t & Ht1 & Ht2 & Ht3 & Ht4).
      exists (t :: toks). cbn [map forallb]. rewrite Ht1, H1, Ht2, H2, Ht4, H4.
      repeat split; try done. by constructor. }
    destruct Htoks as (toks & H1 & H2 & H3 & H4).
    exists toks. repeat split; try done.
    rewrite <- H1. destruct l as [|a0 tl]; [done|].
    unfold Int64Array_Value. rewrite fold_AppendInt.
    rewrite <- (flat_map_join_comma (AppendInt []) a0 tl).
    rewrite (AppendInt_app [ch_lbrace]). cbn [app]. by rewrite <- !app_assoc.
Qed.

Lemma Value_text_witness :
  exists toks,
    Int64Array_Value (Some [-5; 0; 120]) =
    DVBytes (ch_lbrace :: join_comma (map token_text toks) ++ [ch_rbrace]) /\
    map token_value toks = [-5; 0; 120] /\
    Forall token_ok toks /\ forallb canonical toks = true.
Proof.
  apply (proj2 Value_text [-5; 0; 120]).
  repeat constructor; unfold minInt64, maxInt64; cbn; lia.
Defined.

(** * Further properties of the paginator *)

Import Pager Chains.

(** ** Resolution of chains *)

Lemma FastForward_fluent pag op :
  FastForward (fluent_apply pag op) = (pq <- FastForward pag ;; fluent_fn op pq).
Proof. by destruct op. Qed.

Lemma FastForward_run ops : forall pag,
  FastForward (fold_left fluent_apply ops pag) = run ops (FastForward pag).
Proof.
  induction ops as [|op ops IH]; intros pag; [done|].
  cbn [fold_left]. rewrite IH, FastForward_fluent. done.
Qed.

Lemma run_cons op ops r : run (op :: ops) r = run ops (bind r (fluent_fn op)).
Proof. done. Qed.

Lemma run_Err ops e : run ops (Err e) = Err e.
Proof. induction ops as [|op ops IH]; [done|]. by rewrite run_cons. Qed.

Lemma run_Panic ops : run ops Panic = Panic.
Proof. induction ops as [|op ops IH]; [done|]. by rewrite run_cons. Qed.

Lemma run_Ok_inv ops : forall r pq,
  run ops r = Ok pq -> exists pq0, r = Ok pq0.
Proof.
  intros [pq0|e|] pq H; [by exists pq0| |].
  - by rewrite run_Err in H.
  - by rewrite run_Panic in H.
Qed.

Lemma int_mul_0_r a : int_mul a 0 = 0.
Proof. unfold int_mul. by rewrite Z.mul_0_r. Qed.

Lemma newPaginator_build s n :
  FastForward (newPaginator (Some s) n) =
  Ok (mkQuery (Some (SelOffset 0 (SelLimit (norm_size n) s)))
              EmptyString VNil None false (norm_size n) 0).
Proof.
  unfold newPaginator, Page, frame, empty_paginator, norm_size.
  cbn. by rewrite int_mul_0_r.
Qed.

Lemma newPaginator_nil n : FastForward (newPaginator None n) = Panic.
Proof. done. Qed.

(** One fluent call on a state with a Selector fails with the
    missing-column error or gives a state with a Selector. *)
Lemma fluent_fn_cases op pq s :
  sel pq = Some s ->
  fluent_fn op pq = Err errMissingCursorColumn \/
  exists pq',
    fluent_fn op pq = Ok pq' /\ pageSize pq' = pageSize pq /\
    match op with
    | OpPage k =>
        sel pq' = Some (SelOffset (page_offset (pageSize pq) (norm_page k)) s) /\
        pageNumber pq' = norm_page k /\
        cursorColumn pq' = cursorColumn pq /\ cursorValue pq' = cursorValue pq /\
        cursorCond pq' = cursorCond pq /\
        cursorReverseOrder pq' = cursorReverseOrder pq
    | OpCursor c =>
        sel pq' = Some s /\ pageNumber pq' = pageNumber pq /\
        cursorColumn pq' = c /\ cursorValue pq' = VNil /\
        cursorCond pq' = cursorCond pq /\
        cursorReverseOrder pq' = cursorReverseOrder pq
    | OpNextPage v =>
        sel pq' = Some s /\ pageNumber pq' = pageNumber pq /\
        cursorColumn pq' = cursorColumn pq /\ cursorValue pq' = v /\
        cursorCond pq' = Some {[ (cursorColumn pq ++ " >")%string := v ]} /\
        cursorReverseOrder pq' = false
    | OpPrevPage v =>
        sel pq' = Some s /\ pageNumber pq' = pageNumber pq /\
        cursorColumn pq' = cursorColumn pq /\ cursorValue pq' = v /\
        cursorCond pq' = Some {[ (cursorColumn pq ++ " <")%string := v ]} /\
        cursorReverseOrder pq' = true
    end.
Proof.
  intros Hs. destruct op as [k|c|v|v]; cbn [fluent_fn].
  - right. unfold Page_fn, call_sel, page_offset, norm_page. cbn [sel pageNumber pageSize].
    rewrite Hs.
    destruct (Z.ltb_spec k 0) as [Hk|Hk].
    + change (-1 <? 0) with true. cbv iota. eexists. split; [reflexivity|]. done.
    + destruct (Z.ltb_spec k 0); [lia|]. eexists. split; [reflexivity|]. done.
  - right. unfold Cursor_fn. eexists. split; [reflexivity|]. done.
  - unfold NextPage_fn. destruct (_ && _); [by left|right].
    eexists. split; [reflexivity|]. done.
  - unfold PrevPage_fn. destruct (_ && _); [by left|right].
    eexists. split; [reflexivity|]. done.
Qed.

Lemma norm_page_bound k : -1 <= norm_page k.
Proof. unfold norm_page. destruct (Z.ltb_spec k 0); lia. Qed.

Lemma page_offset_norm size k :
  page_offset size (norm_page k) = if k <? 0 then -1 else int_mul size k.
Proof.
  unfold page_offset, norm_page. destruct (Z.ltb_spec k 0) as [H|H]; [done|].
  by destruct (Z.ltb_spec k 0); [lia|].
Qed.

Lemma resolved_from_step s n op pq :
  resolved_from s n pq ->
  fluent_fn op pq = Err errMissingCursorColumn \/
  exists pq', fluent_fn op pq = Ok pq' /\ resolved_from s n pq'.
Proof.
  intros (s' & Hs & Hstrip & Hoff & Hsize & Hpage).
  destruct (fluent_fn_cases op pq s' Hs) as [He|(pq' & Hok & Hps & Hop)]; [by left|right].
  exists pq'. split; [done|].
  destruct op as [k|c|v|v].
  - destruct Hop as (Hs' & Hn & _). eexists. split; [exact Hs'|].
    cbn [strip_offsets offset_of]. rewrite Hps, Hn.
    repeat split; try done. apply norm_page_bound.
  - destruct Hop as (Hs' & Hn & _). exists s'. rewrite Hps, Hn. done.
  - destruct Hop as (Hs' & Hn & _). exists s'. rewrite Hps, Hn. done.
  - destruct Hop as (Hs' & Hn & _). exists s'. rewrite Hps, Hn. done.
Qed.

Lemma resolved_from_run s n ops : forall pq,
  resolved_from s n pq ->
  run ops (Ok pq) = Err errMissingCursorColumn \/
  exists pq', run ops (Ok pq) = Ok pq' /\ resolved_from s n pq'.
Proof.
  induction ops as [|op ops IH]; intros pq Hpq; [right; by exists pq|].
  rewrite run_cons. cbn [bind].
  destruct (resolved_from_step s n op pq Hpq) as [He|(pq' & Hok & Hpq')].
  - left. by rewrite He, run_Err.
  - rewrite Hok. by apply IH.
Qed.

Lemma resolved_from_new s n :
  resolved_from s n (mkQuery (Some (SelOffset 0 (SelLimit (norm_size n) s)))
                             EmptyString VNil None false (norm_size n) 0).
Proof.
  eexists. split; [reflexivity|]. cbn [strip_offsets offset_of pageSize pageNumber].
  unfold page_offset. change (0 <? 0) with false. cbv iota. rewrite int_mul_0_r.
  repeat split; done || lia.
Qed.

(** The cursor handling of [buildWithCursor] on a state with a
    Selector. *)
Lemma buildWithCursor_sel pag pq s :
  FastForward pag = Ok pq -> sel pq = Some s ->
  buildWithCursor pag =
  Ok (let s1 := if negb (String.eqb (cursorColumn pq) EmptyString)
                then SelOrderBy (cursor_orderBy (cursorColumn pq) (cursorReverseOrder pq)) s
                else s in
      let s2 := match cursorCond pq with
                | Some c => SelOffset 0 (SelWhere c s1)
                | None => s1
                end in
      let s3 := if cursorReverseOrder pq
                then SelOrderBy (cursorColumn pq) (SelSelectFrom "_q0.*" "? AS _q0" s2)
                else s2 in
      mkQuery (Some s3) (cursorColumn pq) (cursorValue pq) (cursorCond pq)
              (cursorReverseOrder pq) (pageSize pq) (pageNumber pq)).
Proof.
  intros Hff Hs. unfold buildWithCursor. rewrite Hff. cbn [bind].
  destruct pq as [sl col val cond rev size page]. cbn [sel cursorColumn cursorValue
    cursorCond cursorReverseOrder pageSize pageNumber] in *. subst sl.
  destruct (negb (String.eqb col EmptyString)), cond as [c|], rev; reflexivity.
Qed.

Lemma buildWithCursor_Err pag e :
  buildWithCursor pag = Err e <-> build pag = Err e.
Proof.
  unfold buildWithCursor, build. destruct (FastForward pag) as [pq|e'|]; cbn [bind]; [|done|done].
  split; [|done]. intros H. exfalso.
  destruct pq as [[s|] col val cond rev size page]; unfold call_sel in H;
    cbn [sel cursorColumn cursorValue cursorCond cursorReverseOrder pageSize pageNumber
         bind set_sel] in H.
  - destruct (negb (String.eqb col EmptyString)), cond as [c|], rev; discriminate.
  - destruct (negb (String.eqb col EmptyString)), cond as [c|], rev; discriminate.
Qed.

(** X9. A paginator made by [newPaginator] from a Selector and any
    sequence of fluent calls never panics at resolution, and the only
    error it can give is the missing-column error. When it resolves, the
    Selector of the state is the given one after [Limit] with the
    normalised page size and then [Offset] calls only, the last of them
    with the offset of the recorded page number; the cursor handling then
    succeeds too. So every fetch operation either hands that error to its
    error path or delegates to a Selector. *)
Theorem chain_resolution s n ops :
  (build (chain (Some s) n ops) = Err errMissingCursorColumn /\
   buildWithCursor (chain (Some s) n ops) = Err errMissingCursorColumn /\
   forall m on_error,
     fetch m on_error (chain (Some s) n ops) = on_error errMissingCursorColumn) \/
  (exists pq pq' s',
     build (chain (Some s) n ops) = Ok pq /\ resolved_from s n pq /\
     buildWithCursor (chain (Some s) n ops) = Ok pq' /\ sel pq' = Some s' /\
     forall m on_error, fetch m on_error (chain (Some s) n ops) = Delegated m s').
Proof.
  unfold build, chain.
  pose proof (FastForward_run ops (newPaginator (Some s) n)) as Hrun.
  rewrite newPaginator_build in Hrun.
  destruct (resolved_from_run s n ops _ (resolved_from_new s n)) as [He|(pq & Hok & Hpq)].
  - left. rewrite He in Hrun.
    assert (Hb : buildWithCursor (fold_left fluent_apply ops (newPaginator (Some s) n))
                 = Err errMissingCursorColumn) by by apply buildWithCursor_Err.
    repeat split; [done|done|]. intros m on_error. by apply fetch_error.
  - right. rewrite Hok in Hrun.
    destruct Hpq as (s' & Hs & Hrest).
    pose proof (buildWithCursor_sel _ pq s' Hrun Hs) as Hb.
    eexists pq, _, _. split; [done|]. split; [by exists s'|].
    split; [exact Hb|]. split; [reflexivity|].
    intros m on_error. by apply (fetch_ok m on_error _ _ _ Hb).
Qed.

(** ** The cursor and the offset *)






(** ** Counting *)

Lemma cursor_op_keeps op pq pq' :
  is_cursor_op op = true -> fluent_fn op pq = Ok pq' ->
  sel pq' = sel pq /\ pageSize pq' = pageSize pq /\ pageNumber pq' = pageNumber pq.
Proof.
  intros Hop Hok. destruct op as [k|c|v|v]; [done| | |]; cbn [fluent_fn] in Hok.
  - unfold Cursor_fn in Hok. by injection Hok as <-.
  - unfold NextPage_fn in Hok. destruct (_ && _); [done|]. by injection Hok as <-.
  - unfold PrevPage_fn in Hok. destruct (_ && _); [done|]. by injection Hok as <-.
Qed.

Lemma cursor_ops_keep ops : forall pq pq',
  forallb is_cursor_op ops = true -> run ops (Ok pq) = Ok pq' ->
  sel pq' = sel pq /\ pageSize pq' = pageSize pq /\ pageNumber pq' = pageNumber pq.
Proof.
  induction ops as [|op ops IH]; intros pq pq' Hall Hrun.
  - cbn in Hrun. by injection Hrun as <-.
  - cbn [forallb] in Hall. apply andb_prop in Hall as [Hop Hall].
    rewrite run_cons in Hrun. cbn [bind] in Hrun.
    destruct (run_Ok_inv ops _ _ Hrun) as [q Hq]. rewrite Hq in Hrun.
    destruct (cursor_op_keeps op pq q Hop Hq) as (Hs & Hsize & Hpage).
    destruct (IH q pq' Hall Hrun) as (Hs' & Hsize' & Hpage').
    repeat split; congruence.
Qed.

(** X11. The counts ignore the cursor: after any [Cursor], [NextPage]
    and [PrevPage] calls that resolve, [TotalItems] and [TotalPages] run
    the same count query and give the same answers as before them, and
    the page number and the page size are the same; when the calls do not
    resolve, both counts return the resolution error, whatever the
    executor would answer. *)
Theorem counts_ignore_cursor exec_count pag ops :
  forallb is_cursor_op ops = true ->
  (forall pq, build (fold_left fluent_apply ops pag) = Ok pq ->
     exists pq0,
       build pag = Ok pq0 /\ sel pq = sel pq0 /\
       pageSize pq = pageSize pq0 /\ pageNumber pq = pageNumber pq0 /\
       TotalItems exec_count (fold_left fluent_apply ops pag) = TotalItems exec_count pag /\
       TotalPages exec_count (fold_left fluent_apply ops pag) = TotalPages exec_count pag) /\
  (forall e, build (fold_left fluent_apply ops pag) = Err e ->
     TotalItems exec_count (fold_left fluent_apply ops pag) = Err e /\
     TotalPages exec_count (fold_left fluent_apply ops pag) = Err e).
Proof.
  intros Hall. split.
  - intros pq Hb. pose proof Hb as Hrun. unfold build in Hrun.
    rewrite FastForward_run in Hrun.
    destruct (run_Ok_inv ops _ _ Hrun) as [pq0 H0]. rewrite H0 in Hrun.
    destruct (cursor_ops_keep ops pq0 pq Hall Hrun) as (Hs & Hsize & Hpage).
    exists pq0. repeat split; try done.
    + unfold TotalItems, build in *. rewrite Hb, H0. cbn [bind]. unfold count. by rewrite Hs.
    + unfold TotalPages, build in *. rewrite Hb, H0. cbn [bind]. unfold count.
      by rewrite Hs, Hsize.
  - intros e Hb. unfold TotalItems, TotalPages. by rewrite Hb.
Qed.

Lemma counts_ignore_cursor_witness :
  TotalPages (fun _ => Ok 95)
    (NextPage (VInt 42) (Cursor "id" (newPaginator (Some (SelBase "t")) 10)))
  = TotalPages (fun _ => Ok 95) (newPaginator (Some (SelBase "t")) 10).
Proof.
  destruct (proj1 (counts_ignore_cursor (fun _ => Ok 95)
                     (newPaginator (Some (SelBase "t")) 10)
                     [OpCursor "id"; OpNextPage (VInt 42)] eq_refl) _ eq_refl)
    as (pq0 & _ & _ & _ & _ & _ & H).
  exact H.
Defined.

(** X12. [TotalPages] fails exactly when [TotalItems] does, with the
    same error, and panics exactly when it does; when [TotalItems]
    returns a count, [TotalPages] returns a number of pages. A chain that
    does not resolve gives its error to both without the executor being
    asked. *)
Theorem TotalPages_fails_as_TotalItems exec_count pag :
  (forall e, TotalPages exec_count pag = Err e <-> TotalItems exec_count pag = Err e) /\
  (TotalPages exec_count pag = Panic <-> TotalItems exec_count pag = Panic) /\
  ((exists p, TotalPages exec_count pag = Ok p) <->
   (exists n, TotalItems exec_count pag = Ok n)) /\
  (forall e exec_count',
     build pag = Err e ->
     TotalItems exec_count' pag = Err e /\ TotalPages exec_count' pag = Err e).
Proof.
  unfold TotalPages, TotalItems.
  destruct (build pag) as [pq|e0|]; cbn [bind];
    [destruct (count exec_count pq) as [n|e0|]; cbn [bind];
       [destruct (pageSize pq <=? 0)| |]| |];
    repeat split; intros;
    repeat match goal with H : exists _, _ |- _ => destruct H end;
    try congruence; by eexists.
Qed.

(** ** Offset pagination *)

Lemma List_last_cons {A} (l : list A) : forall a d, List.last (a :: l) d = List.last l a.
Proof.
  induction l as [|b l IH]; intros a d; [done|].
  change (List.last (a :: b :: l) d) with (List.last (b :: l) d).
  by rewrite !IH.
Qed.

Lemma run_pages size : forall ps sel0 page0,
  run (map OpPage ps)
      (Ok (mkQuery (Some sel0) EmptyString VNil None false size page0)) =
  Ok (mkQuery
        (Some (fold_left (fun sl k => SelOffset (page_offset size (norm_page k)) sl) ps sel0))
        EmptyString VNil None false size (List.last (map norm_page ps) page0)).
Proof.
  induction ps as [|k ps IH]; intros sel0 page0; [done|].
  cbn [map]. rewrite run_cons. cbn [bind fluent_fn fold_left].
  assert (Hk : Page_fn k (mkQuery (Some sel0) EmptyString VNil None false size page0) =
               Ok (mkQuery (Some (SelOffset (page_offset size (norm_page k)) sel0))
                           EmptyString VNil None false size (norm_page k))).
  { unfold Page_fn, call_sel, page_offset, norm_page, set_sel.
    cbn [sel cursorColumn cursorValue cursorCond cursorReverseOrder pageSize pageNumber].
    destruct (Z.ltb_spec k 0) as [H|H].
    - by change (-1 <? 0) with true.
    - by destruct (Z.ltb_spec k 0); [lia|]. }
  rewrite Hk, IH. by rewrite List_last_cons.
Qed.

(** X13. A paginator on which only [Page] was called, any number of
    times: it always resolves; each call adds one [Offset] call to the
    Selector, on top of [Limit] and of the [Offset(0)] of the
    constructor, so the last one decides; the page number recorded is the
    last one given, [-1] for a negative one; no cursor is staged and the
    cursor handling leaves the Selector as it is. *)
Theorem Page_chain s n ps :
  build (chain (Some s) n (map OpPage ps)) =
    Ok (mkQuery
          (Some (fold_left (fun sl k => SelOffset (page_offset (norm_size n) (norm_page k)) sl)
                           ps (SelOffset 0 (SelLimit (norm_size n) s))))
          EmptyString VNil None false (norm_size n)
          (List.last (map norm_page ps) 0)) /\
  buildWithCursor (chain (Some s) n (map OpPage ps)) =
    build (chain (Some s) n (map OpPage ps)).
Proof.
  assert (Hb : build (chain (Some s) n (map OpPage ps)) =
    Ok (mkQuery
          (Some (fold_left (fun sl k => SelOffset (page_offset (norm_size n) (norm_page k)) sl)
                           ps (SelOffset 0 (SelLimit (norm_size n) s))))
          EmptyString VNil None false (norm_size n)
          (List.last (map norm_page ps) 0))).
  { unfold build, chain. rewrite FastForward_run, newPaginator_build. by apply run_pages. }
  split; [exact Hb|]. rewrite Hb. unfold build in Hb.
  by rewrite (buildWithCursor_sel _ _ _ Hb eq_refl).
Qed.

(** ** The order of the inner query *)

Lemma prefix_dash a c : String.prefix "-" (String a c) = Ascii.eqb a "-".
Proof.
  cbn [String.prefix]. destruct (ascii_dec "-" a) as [<-|H].
  - by destruct c.
  - symmetry. apply Ascii.eqb_neq. congruence.
Qed.

Lemma prefix_dash_dash a b c :
  String.prefix "--" (String a (String b c)) = Ascii.eqb a "-" && Ascii.eqb b "-".
Proof.
  change (String.prefix "--" (String a (String b c))) with
    (if ascii_dec "-" a then String.prefix "-" (String b c) else false).
  rewrite prefix_dash. destruct (ascii_dec "-" a) as [<-|H]; [done|].
  assert (Ascii.eqb a "-" = false) as -> by (apply Ascii.eqb_neq; congruence). done.
Qed.

Lemma prefix_dash_dash_short a : String.prefix "--" (String a "") = false.
Proof. cbn [String.prefix]. by destruct (ascii_dec "-" a). Qed.

Lemma dash_append x : ("-" ++ x)%string = String "-" x.
Proof. reflexivity. Qed.

(** X14. Reversing the order column twice gives the column back, and
    reversing it once toggles the direction that the Selector reads off
    it, exactly for the columns that do not start with two dashes: of
    those only the first dash is removed. *)
Theorem cursor_orderBy_involution c :
  (cursor_orderBy (cursor_orderBy c true) true = c <-> String.prefix "--" c = false) /\
  (is_descending (cursor_orderBy c true) = negb (is_descending c)
     <-> String.prefix "--" c = false) /\
  cursor_orderBy c false = c.
Proof.
  unfold is_descending.
  destruct c as [|a c]; [repeat split; done|].
  destruct c as [|b c].
  - unfold cursor_orderBy. rewrite prefix_dash_dash_short, !prefix_dash.
    destruct (Ascii.eqb_spec a "-") as [->|Ha]; cbn [string_tail negb].
    + repeat split; done.
    + rewrite !dash_append, !prefix_dash. change (Ascii.eqb "-" "-") with true.
      cbn [string_tail]. repeat split; done.
  - unfold cursor_orderBy. rewrite prefix_dash_dash, !prefix_dash.
    destruct (Ascii.eqb_spec a "-") as [->|Ha]; cbn [string_tail andb negb].
    + rewrite prefix_dash.
      destruct (Ascii.eqb_spec b "-") as [->|Hb]; cbn [string_tail].
      * repeat split; try done.
        intros H. exfalso.
        assert (Hl : String.length c = String.length (String "-" (String "-" c)))
          by by rewrite <- H.
        cbn in Hl. lia.
      * rewrite !dash_append. repeat split; done.
    + rewrite !dash_append, !prefix_dash. change (Ascii.eqb "-" "-") with true.
      cbn [string_tail]. repeat split; done.
Qed.

(** ** A paginator without a Selector *)

(** X15. [newPaginator] on a nil Selector returns a paginator: nothing
    is called on the Selector until resolution. Every resolution of it,
    after any fluent calls, panics, so every count and every fetch
    operation does, and none returns an error. *)
Theorem nil_selector_panics_at_resolution exec_count n ops :
  (exists fn prev, chain None n [] = mkPaginator (Some fn) prev) /\
  build (chain None n ops) = Panic /\
  buildWithCursor (chain None n ops) = Panic /\
  TotalItems exec_count (chain None n ops) = Panic /\
  TotalPages exec_count (chain None n ops) = Panic /\
  forall m on_error, fetch m on_error (chain None n ops) = Panicked None.
Proof.
  assert (Hb : FastForward (chain None n ops) = Panic).
  { unfold chain. by rewrite FastForward_run, newPaginator_nil, run_Panic. }
  split; [by eexists _, _|].
  unfold build, buildWithCursor, TotalItems, TotalPages, fetch, buildWithCursor, build.
  rewrite Hb. done.
Qed.

(** ** Cursor steps with a configured column *)

Lemma fluent_fn_no_error op pq s :
  sel pq = Some s ->
  is_step op = false \/ cursorColumn pq <> EmptyString \/ cursorValue pq = VNil ->
  fluent_fn op pq <> Err errMissingCursorColumn.
Proof.
  intros Hs Hc. destruct op as [k|c|v|v]; cbn [fluent_fn].
  - unfold Page_fn, call_sel. cbn [sel]. rewrite Hs. by destruct (_ <? 0).
  - done.
  - destruct Hc as [Hc|Hc]; [done|]. unfold NextPage_fn.
    destruct (negb _ && _) eqn:Hg; [|done].
    apply missing_column_guard in Hg as [Hv Hcol]. by destruct Hc.
  - destruct Hc as [Hc|Hc]; [done|]. unfold PrevPage_fn.
    destruct (negb _ && _) eqn:Hg; [|done].
    apply missing_column_guard in Hg as [Hv Hcol]. by destruct Hc.
Qed.

Lemma no_step_run ops : forall pq s,
  sel pq = Some s -> existsb is_step ops = false -> cursorValue pq = VNil ->
  exists pq', run ops (Ok pq) = Ok pq' /\ is_Some (sel pq') /\ cursorValue pq' = VNil.
Proof.
  induction ops as [|op ops IH]; intros pq s Hs Hno Hv.
  - exists pq. by rewrite Hs.
  - cbn [existsb] in Hno. apply orb_false_elim in Hno as [Hop Hno].
    rewrite run_cons. cbn [bind].
    destruct (fluent_fn_cases op pq s Hs) as [He|(q & Hq & _ & Hcase)].
    { by destruct (fluent_fn_no_error op pq s Hs (or_introl Hop)). }
    rewrite Hq. destruct op as [k|c|v|v]; try done.
    + destruct Hcase as (Hs' & _ & _ & Hv' & _). apply (IH q _ Hs' Hno). congruence.
    + destruct Hcase as (Hs' & _ & _ & Hv' & _). by apply (IH q _ Hs' Hno).
Qed.

Lemma keeps_column_run ops : forall pq s,
  sel pq = Some s -> forallb keeps_column ops = true ->
  cursorColumn pq <> EmptyString ->
  exists pq', run ops (Ok pq) = Ok pq' /\ is_Some (sel pq') /\
              cursorColumn pq' <> EmptyString.
Proof.
  induction ops as [|op ops IH]; intros pq s Hs Hall Hcol.
  - exists pq. by rewrite Hs.
  - cbn [forallb] in Hall. apply andb_prop in Hall as [Hop Hall].
    rewrite run_cons. cbn [bind].
    destruct (fluent_fn_cases op pq s Hs) as [He|(q & Hq & _ & Hcase)].
    { by destruct (fluent_fn_no_error op pq s Hs (or_intror (or_introl Hcol))). }
    rewrite Hq. destruct op as [k|c|v|v]; cbn [keeps_column] in Hop.
    + destruct Hcase as (Hs' & _ & Hc' & _). apply (IH q _ Hs' Hall). congruence.
    + destruct Hcase as (Hs' & _ & Hc' & _). apply (IH q _ Hs' Hall).
      rewrite Hc'. intros ->. done.
    + destruct Hcase as (Hs' & _ & Hc' & _). apply (IH q _ Hs' Hall). congruence.
    + destruct Hcase as (Hs' & _ & Hc' & _). apply (IH q _ Hs' Hall). congruence.
Qed.

Lemma run_app ops1 ops2 r : run (ops1 ++ ops2) r = run ops2 (run ops1 r).
Proof. apply fold_left_app. Qed.

(** X16. Cursor steps never fail once a column is configured: when
    [Cursor] is called with a non-empty column before the first
    [NextPage] or [PrevPage], and no later [Cursor] call gives the empty
    column, the paginator resolves, with and without the cursor
    handling, whatever the number and the order of the steps and of the
    [Page] calls; the column of the resolved state is not empty. *)
Theorem configured_cursor_resolves s n pre c post :
  existsb is_step pre = false -> c <> EmptyString ->
  forallb keeps_column post = true ->
  exists pq pq',
    build (chain (Some s) n (pre ++ OpCursor c :: post)) = Ok pq /\
    cursorColumn pq <> EmptyString /\
    buildWithCursor (chain (Some s) n (pre ++ OpCursor c :: post)) = Ok pq' /\
    is_Some (sel pq').
Proof.
  intros Hpre Hc Hpost. unfold build, chain.
  pose proof (FastForward_run (pre ++ OpCursor c :: post) (newPaginator (Some s) n)) as Hrun.
  rewrite newPaginator_build, run_app in Hrun.
  destruct (no_step_run pre
              (mkQuery (Some (SelOffset 0 (SelLimit (norm_size n) s)))
                       EmptyString VNil None false (norm_size n) 0)
              _ eq_refl Hpre eq_refl) as (pq1 & Hpq1 & [s1 Hs1] & Hv1).
  rewrite Hpq1, run_cons in Hrun. cbn [bind fluent_fn] in Hrun. unfold Cursor_fn in Hrun.
  destruct (keeps_column_run post
              (mkQuery (sel pq1) c VNil (cursorCond pq1) (cursorReverseOrder pq1)
                       (pageSize pq1) (pageNumber pq1)) s1 Hs1 Hpost Hc)
    as (pq & Hpq & [s' Hs'] & Hcol).
  rewrite Hpq in Hrun.
  eexists pq, _. split; [exact Hrun|]. split; [exact Hcol|].
  split; [exact (buildWithCursor_sel _ pq s' Hrun Hs')|]. done.
Qed.

Lemma configured_cursor_resolves_witness :
  exists pq pq',
    build (NextPage (VInt 3) (Page 2 (PrevPage (VInt 9) (NextPage (VInt 5)
             (Cursor "id" (Page 4 (newPaginator (Some (SelBase "t")) 10))))))) = Ok pq /\
    cursorColumn pq <> EmptyString /\
    buildWithCursor (NextPage (VInt 3) (Page 2 (PrevPage (VInt 9) (NextPage (VInt 5)
             (Cursor "id" (Page 4 (newPaginator (Some (SelBase "t")) 10))))))) = Ok pq' /\
    is_Some (sel pq').
Proof.
  apply (configured_cursor_resolves (SelBase "t") 10 [OpPage 4] "id"
           [OpNextPage (VInt 5); OpPrevPage (VInt 9); OpPage 2; OpNextPage (VInt 3)]
           eq_refl ltac:(discriminate) eq_refl).
Defined.

(** ** The heaps of the program *)

Lemma heap_alloc_wf h : heap_wf h -> heap_wf (h ++ [mkCell None None]).
Proof.
  intros Hwf a c p Ha Hp.
  destruct (decide (a < length h)%nat) as [Hlt|Hge].
  - rewrite lookup_app_l in Ha by done. by apply (Hwf a c p).
  - rewrite lookup_app_r in Ha by lia.
    destruct (a - length h)%nat; [|done]. cbn in Ha. injection Ha as <-. done.
Qed.

(** X17. Every heap that the program can make, by [&paginator{}] and by
    [frame] on pointers it holds, keeps each [prev] pointing to an older
    cell; so the chain behind every pointer is finite, and resolution
    through a handle is defined. *)
Theorem reachable_heaps_resolve h :
  heap_reachable h ->
  heap_wf h /\
  forall pag, heap_valid h pag ->
    exists c, heap_chain (length h) h pag = Some c /\
              heap_resolve h pag = Some (FastForward c).
Proof.
  intros Hr.
  assert (Hwf : heap_wf h).
  { induction Hr as [|h Hr IH|h pag fn Hr IH Hv].
    - intros a c p Ha. done.
    - by apply heap_alloc_wf.
    - by apply heap_frame_wf. }
  split; [done|]. intros pag Hv.
  destruct (heap_chain_valid h pag Hwf Hv) as [c Hc].
  exists c. split; [done|]. unfold heap_resolve. by rewrite Hc.
Qed.

Lemma reachable_heaps_resolve_witness :
  exists c,
    heap_chain 2 [mkCell None None; mkCell (Some (Page_fn 2)) (Some 0%nat)] (Some 1%nat)
      = Some c /\
    heap_resolve [mkCell None None; mkCell (Some (Page_fn 2)) (Some 0%nat)] (Some 1%nat)
      = Some (FastForward c).
Proof.
  apply (proj2 (reachable_heaps_resolve
                  [mkCell None None; mkCell (Some (Page_fn 2)) (Some 0%nat)]
                  (reach_frame [mkCell None None] (Some 0%nat) (Page_fn 2)
                     (reach_alloc [] reach_empty) ltac:(cbn; lia)))
               (Some 1%nat) ltac:(cbn; lia)).
Defined.
